(** * whipper: command dispatch, option registration and the task boundary

    A shallow embedding of [whipper/command/basecommand.py] (class
    [BaseCommand]) together with the collaborators it calls, and of the
    task-runner contract exercised by
    [morituri/test/test_common_encode.py].

    Python objects are untyped, so values are one inductive type; [kwargs]
    dictionaries and [argparse.Namespace] objects are finite maps from
    attribute names to values.  Effects are explicit: a computation takes a
    state and returns its result, the state it leaves behind and the events
    it caused, in order (log records, configuration look-ups, calls of
    [parse_args], help output, constructor entries). *)

From stdpp Require Import base gmap strings list fin_maps sorting.
From Stdlib Require Import ZArith.

Set Warnings "-register-all,-clear-no-such-hyp".

Local Open Scope Z_scope.
Local Open Scope string_scope.
Local Open Scope list_scope.

(** ** Values *)

(** The callables a [type=] keyword can name.  [__name__] is all the source
    reads from them (line 171). *)
Inductive pytype :=
  | Tint
  | Tfloat
  | Tbool
  | Tstr
  | Tcallable (name : string).

Definition type_name (t : pytype) : string :=
  match t with
  | Tint => "int"
  | Tfloat => "float"
  | Tbool => "bool"
  | Tstr => "str"
  | Tcallable name => name
  end.

Inductive pyval :=
  | VNone
  | VBool (b : bool)
  | VInt (n : Z)
  | VFloat (repr : string)
  | VStr (s : string)
  | VList (l : list string)
  | VType (t : pytype).

Global Instance pytype_eq_dec : EqDecision pytype.
Proof. solve_decision. Defined.

Global Instance pyval_eq_dec : EqDecision pyval.
Proof. solve_decision. Defined.

(** Keyword arguments of a call, and the attributes of a namespace. *)
Abbreviation Kwargs := (gmap string pyval).
Abbreviation Namespace := (gmap string pyval).

(** Namespace objects live in a heap and are passed by reference. *)
Definition loc := nat.
Abbreviation Heap := (gmap loc Namespace).

(** ** Exceptions, results and events *)

Inductive exn :=
  | IOError (msg : string)
  | SyntaxError (msg : string)
  | TypeError (msg : string)
  | AttributeError (msg : string)
  | ArgumentError (msg : string)
  | SystemExit (code : Z).

(** [IllFormed n]: control reached line [n] of the source, whose text is not
    a statement of the language, so that the program has no behaviour from
    there.  [OutOfModel]: the call leaves the part of [argparse] that is
    modelled below. *)
Inductive result (A : Type) :=
  | Ok (a : A)
  | Raise (e : exn)
  | IllFormed (line : nat)
  | OutOfModel (why : string).
Arguments Ok {A} a.
Arguments Raise {A} e.
Arguments IllFormed {A} line.
Arguments OutOfModel {A} why.

Inductive level := ERROR | CRITICAL.

Inductive event :=
  | EvLog (lvl : level) (msg : string)
  | EvConfigGet (typesuffix : string) (section key default : pyval)
  | EvParse (prog : string) (argv : list string) (namespace : loc)
  | EvPrintHelp (prog : string)
  | EvInit (prog : string) (argv : list string) (opts : option loc).

Global Instance exn_eq_dec : EqDecision exn.
Proof. solve_decision. Defined.

Global Instance level_eq_dec : EqDecision level.
Proof. solve_decision. Defined.

Global Instance event_eq_dec : EqDecision event.
Proof. solve_decision. Defined.

(** ** The state-and-trace monad *)

Definition ST (S A : Type) : Type := S → result A * S * list event.

Global Instance ST_ret S : MRet (ST S) := λ A a s, (Ok a, s, []).

Global Instance ST_bind S : MBind (ST S) := λ A B k m s,
  match m s with
  | (Ok a, s1, t1) => match k a s1 with (r, s2, t2) => (r, s2, t1 ++ t2) end
  | (Raise e, s1, t1) => (Raise e, s1, t1)
  | (IllFormed n, s1, t1) => (IllFormed n, s1, t1)
  | (OutOfModel w, s1, t1) => (OutOfModel w, s1, t1)
  end.

Definition raise {S A} (e : exn) : ST S A := λ s, (Raise e, s, []).
Definition ill_formed {S A} (line : nat) : ST S A := λ s, (IllFormed line, s, []).
Definition out_of_model {S A} (why : string) : ST S A := λ s, (OutOfModel why, s, []).
Definition emit {S} (e : event) : ST S unit := λ s, (Ok tt, s, [e]).
Definition get {S} : ST S S := λ s, (Ok s, s, []).
Definition put {S} (s' : S) : ST S unit := λ _, (Ok tt, s', []).

(** [logger.critical(msg)] and [sys.exit(code)]. *)
Definition logger_critical {S} (msg : string) : ST S unit := emit (EvLog CRITICAL msg).
Definition sys_exit {S A} (code : Z) : ST S A := raise (SystemExit code).

(** Run a computation on a state of its own (an object local to the caller)
    and hand back the state it ends in. *)
Definition on_local {S T A} (m : ST T A) (t : T) : ST S (A * T) := λ s,
  match m t with
  | (Ok a, t', tr) => (Ok (a, t'), s, tr)
  | (Raise e, _, tr) => (Raise e, s, tr)
  | (IllFormed n, _, tr) => (IllFormed n, s, tr)
  | (OutOfModel w, _, tr) => (OutOfModel w, s, tr)
  end.

(** ** Collaborators *)

(** Modelled from the spec: [whipper.common.config.Config] is not among the
    sources.  Section 6 gives its interface,
    [get(type_suffix, section, key, default) -> value], which must return
    the code default unmodified when no stored value exists.  The store is
    the typed look-up itself: [typed_get suffix section key] is the stored
    value read through the getter that [suffix] selects, or [None]. *)
Record ConfigStore := {
  typed_get : string → pyval → pyval → option pyval
}.

Definition config_lookup (cfg : ConfigStore)
    (typesuffix : string) (section key default : pyval) : pyval :=
  match typed_get cfg typesuffix section key with
  | Some v => v
  | None => default
  end.

(** What the process finds around it: the configuration singleton
    ([BaseCommand.config]), the drives [drive.getAllDevicePaths()] returns,
    [os.path.realpath], [os.path.exists], and the conversion a [type=]
    callable applies to a command-line string ([None] when it raises). *)
Record Env := {
  config : ConfigStore;
  drives : list string;
  realpath : string → string;
  path_exists : string → bool;
  convert : pytype → string → option pyval
}.

(** ** The part of [argparse] the commands use

    Optional arguments with the actions [store] (one value, given as the
    next token), [store_true], [store_false] and [help], matched by their
    exact option strings, and one positional with [nargs=REMAINDER]; the
    separator [--]; the error for an abbreviation that is ambiguous.  An
    abbreviation that is not ambiguous, a value attached with [=] or to a
    short option, a value that begins with [-], an option that is not
    registered and other positionals are outside the model: where one of
    them would be consumed the result is [OutOfModel]. *)

Definition SUPPRESS : string := "==SUPPRESS==".
Definition REMAINDER : string := "...".

Inductive action_kind :=
  | Store
  | StoreConst (v : pyval)
  | Help
  | Remainder.

Global Instance action_kind_eq_dec : EqDecision action_kind.
Proof. solve_decision. Defined.

(** One registered argument.  [dflt = None]: the action stores no default
    (the [help] action, whose default is [SUPPRESS]); [received] keeps the
    keyword arguments [add_argument] was called with. *)
Record Action := {
  option_strings : list string;
  dest : string;
  dflt : option pyval;
  type_ : option pytype;
  kind : action_kind;
  received : Kwargs
}.

Global Instance Action_eq_dec : EqDecision Action.
Proof. solve_decision. Defined.

Record Parser := {
  prog : string;
  parser_description : string;
  parser_formatter_class : string;
  epilog_text : option string;
  add_help : bool;
  actions : list Action
}.

Definition with_action (P : Parser) (a : Action) : Parser :=
  {| prog := prog P;
     parser_description := parser_description P;
     parser_formatter_class := parser_formatter_class P;
     epilog_text := epilog_text P;
     add_help := add_help P;
     actions := actions P ++ [a] |}.

Definition is_flag (s : string) : bool := String.prefix "-" s.

Definition registered_flags (P : Parser) : list string :=
  concat (map option_strings (actions P)).

Definition optional_keys : gset string :=
  {[ "dest"; "default"; "type"; "action"; "help"; "metavar" ]}.

Definition positional_keys : gset string := {[ "nargs"; "help" ]}.

Definition kind_of (kwargs : Kwargs) : option action_kind :=
  match kwargs !! "action" with
  | None => Some Store
  | Some (VStr a) =>
      if decide (a = "store") then Some Store
      else if decide (a = "store_true") then Some (StoreConst (VBool true))
      else if decide (a = "store_false") then Some (StoreConst (VBool false))
      else if decide (a = "help") then Some Help
      else None
  | Some _ => None
  end.

Definition type_of (k : action_kind) (kwargs : Kwargs) : option (option pytype) :=
  match kwargs !! "type", k with
  | None, _ => Some None
  | Some (VType t), Store => Some (Some t)
  | Some _, _ => None
  end.

Definition default_of (k : action_kind) (kwargs : Kwargs) : option pyval :=
  match kwargs !! "default" with
  | Some v => Some v
  | None =>
      match k with
      | Store | Remainder => Some VNone
      | StoreConst (VBool b) => Some (VBool (negb b))
      | StoreConst _ => Some VNone
      | Help => None
      end
  end.

Definition make_optional (flags : list string) (kwargs : Kwargs) : result Action :=
  if negb (bool_decide (dom kwargs ⊆ optional_keys))
  then OutOfModel "add_argument: keyword outside the model"
  else if bool_decide (kwargs !! "default" = Some (VStr SUPPRESS))
  then OutOfModel "add_argument: default=SUPPRESS"
  else
    match kwargs !! "dest", kind_of kwargs with
    | Some (VStr d), Some k =>
        match type_of k kwargs with
        | Some ty =>
            Ok {| option_strings := flags; dest := d;
                  dflt := default_of k kwargs; type_ := ty; kind := k;
                  received := kwargs |}
        | None => OutOfModel "add_argument: type outside the model"
        end
    | _, _ => OutOfModel "add_argument: dest or action outside the model"
    end.

Definition make_positional (name : string) (kwargs : Kwargs) : result Action :=
  if bool_decide (kwargs !! "nargs" = Some (VStr REMAINDER))
     && bool_decide (dom kwargs ⊆ positional_keys)
     && negb (bool_decide (name = ""))
  then Ok {| option_strings := []; dest := name;
             dflt := default_of Remainder kwargs; type_ := None;
             kind := Remainder; received := kwargs |}
  else OutOfModel "add_argument: positional outside the model".

(** [parser.add_argument] with positional arguments [args] and keyword
    arguments [kwargs].  An option string that is already registered is a
    conflict, which [argparse] reports by raising [ArgumentError]. *)
Definition add_argument (args : list string) (kwargs : Kwargs) : ST Parser unit := λ P,
  let made :=
    match args with
    | [] => OutOfModel "add_argument: no name or flag"
    | [name] =>
        if is_flag name then make_optional args kwargs
        else make_positional name kwargs
    | _ =>
        if forallb is_flag args then make_optional args kwargs
        else OutOfModel "add_argument: flags mixed with names"
    end in
  match made with
  | Ok a =>
      if existsb (λ f, bool_decide (f ∈ registered_flags P)) (option_strings a)
      then (Raise (ArgumentError "conflicting option string"), P, [])
      else (Ok tt, with_action P a, [])
  | Raise e => (Raise e, P, [])
  | IllFormed n => (IllFormed n, P, [])
  | OutOfModel w => (OutOfModel w, P, [])
  end.

(** The constructor [argparse.ArgumentParser]: with [add_help] (the
    default) the new parser already has the [-h/--help] action. *)
Definition help_action : Action :=
  {| option_strings := ["-h"; "--help"]; dest := "help"; dflt := None;
     type_ := None; kind := Help;
     received := {[ "action" := VStr "help"; "default" := VStr SUPPRESS ]} |}.

Definition ArgumentParser (prog_name descr fmt : string)
    (epi : option string) (help : bool) : Parser :=
  {| prog := prog_name; parser_description := descr;
     parser_formatter_class := fmt; epilog_text := epi; add_help := help;
     actions := if help then [help_action] else [] |}.

(** ** [BaseCommand.add_argument_and_config] (lines 139-184) *)

Section WithEnv.

Variable env : Env.

(** Modelled from the spec: [Config.getter_or_default] is not among the
    sources; it is the store's [get] of section 6, which returns the stored
    value when there is one and the code default unmodified otherwise.  The
    call is recorded with the four arguments it receives. *)
Definition getter_or_default {S} (typesuffix : string)
    (section key default : pyval) : ST S pyval :=
  _ ← emit (EvConfigGet typesuffix section key default);
  mret (config_lookup (config env) typesuffix section key default).

(** Lines 168-173.  Line 172 reads [else if kwargs["type"] = bool:], which
    is not a statement of the language ([else if] for [elif], an assignment
    where a condition is required), so the source gives no meaning to the
    branch taken when [type] is present and is neither [int] nor [float]. *)
Definition typesuffix_of {S} (kwargs : Kwargs) : ST S string :=
  match kwargs !! "type" with
  | None => mret ""
  | Some ty =>
      if bool_decide (ty = VType Tint ∨ ty = VType Tfloat)
      then match ty with
           | VType t => mret (type_name t)    (* kwargs["type"].__name__ *)
           | _ => mret ""
           end
      else ill_formed 172
  end.

Definition add_argument_and_config (config_section : option string)
    (args : list string) (kwargs : Kwargs) : ST Parser unit :=
  (* lines 140-150 *)
  let '(section, kwargs) :=
    match kwargs !! "section" with
    | Some s => (s, delete "section" kwargs)
    | None =>
        (match config_section with
         | None => VStr "main"
         | Some cs => VStr cs
         end, kwargs)
    end in
  (* lines 154-157 *)
  let '(default, kwargs) :=
    match kwargs !! "default" with
    | Some d => (d, delete "default" kwargs)
    | None => (VNone, kwargs)
    end in
  (* lines 161-165 *)
  match kwargs !! "dest" with
  | None => raise (SyntaxError "parser requires a 'dest' argument")
  | Some key =>
      (* lines 168-173 *)
      typesuffix ← typesuffix_of kwargs;
      (* lines 179-184 *)
      effective ← getter_or_default typesuffix section key default;
      add_argument args (<["default" := effective]> kwargs)
  end.

End WithEnv.

(** ** [ArgumentParser.parse_args] *)

Section Parse.

Variable env : Env.

Definition setattr (name : string) (v : pyval) : ST Namespace unit :=
  λ ns, (Ok tt, <[name := v]> ns, []).

(** "Add any action defaults that aren't present": an attribute the
    namespace already has is left alone.  Returns the actions whose default
    was stored. *)
Fixpoint set_defaults (acts : list Action) : ST Namespace (list Action) :=
  match acts with
  | [] => mret []
  | a :: acts' =>
      ns ← get;
      match dflt a, ns !! dest a with
      | Some v, None =>
          _ ← setattr (dest a) v;
          applied ← set_defaults acts';
          mret (a :: applied)
      | _, _ => set_defaults acts'
      end
  end.

Definition find_flag (P : Parser) (t : string) : option Action :=
  List.find (λ a, bool_decide (t ∈ option_strings a)) (actions P).

Definition remainder_action (P : Parser) : option Action :=
  List.find (λ a, bool_decide (kind a = Remainder)) (actions P).

(** A token is an argument unless it begins with [-]; a lone [-] is an
    argument too. *)
Definition is_argument (t : string) : bool :=
  negb (is_flag t) || bool_decide (t = "-").

(** [parser.error(...)]: usage message, exit status 2. *)
Definition parser_error {S A} : ST S A := sys_exit 2.

Definition get_value (a : Action) (v : string) : ST Namespace pyval :=
  match type_ a with
  | None => mret (VStr v)
  | Some t =>
      match convert env t v with
      | Some x => mret x
      | None => parser_error
      end
  end.

Definition equals_sign : Ascii.ascii := Eval cbv in Ascii.ascii_of_nat 61.
Definition dash : Ascii.ascii := Eval cbv in Ascii.ascii_of_nat 45.

(** The part of a token before its first [=]; the token when it has
    none. *)
Fixpoint before_eq (s : string) : string :=
  match s with
  | EmptyString => EmptyString
  | String c s' =>
      if Ascii.eqb c equals_sign then EmptyString else String c (before_eq s')
  end.

Definition has_eq (s : string) : bool :=
  negb (String.eqb (before_eq s) s).

Definition second_is_dash (t : string) : bool :=
  match t with
  | String _ (String c _) => Ascii.eqb c dash
  | _ => false
  end.

(** [_get_option_tuples] (argparse.py, lines 2285-2327): the registered
    option strings a token that is none of them could stand for.  A token
    that begins with [--] stands for every option string that begins with
    what it has before its [=]; one that begins with a single [-] stands
    for the option string that is its first two characters and for every
    option string that begins with the token.  The option strings are the
    keys of a dictionary: each counts once. *)
Definition option_tuples (P : Parser) (t : string) : list string :=
  if second_is_dash t
  then List.filter (String.prefix (before_eq t)) (remove_dups (registered_flags P))
  else List.filter (λ f, String.eqb f (String.substring 0 2 t) || String.prefix t f)
                   (remove_dups (registered_flags P)).

(** [_parse_optional] (lines 2234-2283) ends in [error] for a token that
    begins with [-], is longer than one character, is no option string
    itself, has no option string before an [=], and could stand for more
    than one option. *)
Definition ambiguous (P : Parser) (t : string) : bool :=
  is_flag t
  && negb (bool_decide (t ∈ registered_flags P))
  && negb (Nat.eqb (String.length t) 1)
  && negb (has_eq t && bool_decide (before_eq t ∈ registered_flags P))
  && Nat.ltb 1 (length (option_tuples P t)).

(** The tokens are classified before any of them is consumed (lines
    1933-1956), each by [_parse_optional], up to the first [--]. *)
Fixpoint has_ambiguous (P : Parser) (argv : list string) : bool :=
  match argv with
  | [] => false
  | t :: rest =>
      if bool_decide (t = "--") then false
      else ambiguous P t || has_ambiguous P rest
  end.

Definition classify (P : Parser) (argv : list string) : ST Namespace unit :=
  if has_ambiguous P argv then parser_error else mret tt.

(** The scan of [argv] (lines 2084-2122).  Options are taken while the next
    token is one.  The first argument token, or [--], starts the part for
    the positionals: the catch-all takes every token from there on verbatim,
    [--] included (line 2472); a parser without positionals goes on to the
    options that follow and ends with [error] for the tokens it could not
    place (line 1875).  On that path the model leaves out the conversion of
    the defaults that precedes the [error].  Returns the destinations
    written from the command line. *)
Fixpoint consume (P : Parser) (argv : list string) (seen : list string)
    : ST Namespace (list string) :=
  match argv with
  | [] =>
      match remainder_action P with
      | Some r => _ ← setattr (dest r) (VList []); mret seen
      | None => mret seen
      end
  | t :: rest =>
      if is_argument t then
        if bool_decide (t ∈ registered_flags P)
        then out_of_model "parse_args: - as an option string"
        else
          match remainder_action P with
          | Some r => _ ← setattr (dest r) (VList (t :: rest)); mret seen
          | None => _ ← consume P rest seen; parser_error
          end
      else
        match find_flag P t with
        | None =>
            if bool_decide (t = "--") then
              match remainder_action P with
              | Some r => _ ← setattr (dest r) (VList (t :: rest)); mret seen
              | None => parser_error
              end
            else out_of_model "parse_args: not an exact option string"
        | Some a =>
            if bool_decide (t = "--")
            then out_of_model "parse_args: -- as an option string"
            else
            match kind a with
            | Help => _ ← emit (EvPrintHelp (prog P)); sys_exit 0
            | StoreConst c =>
                _ ← setattr (dest a) c;
                consume P rest (dest a :: seen)
            | Store =>
                match rest with
                | [] => parser_error
                | v :: rest' =>
                    if is_argument v then
                      if bool_decide (v ∈ registered_flags P)
                      then out_of_model "parse_args: - as an option string"
                      else
                        x ← get_value a v;
                        _ ← setattr (dest a) x;
                        consume P rest' (dest a :: seen)
                    else if bool_decide (v ∈ registered_flags P) then parser_error
                    else out_of_model "parse_args: value begins with -"
                end
            | Remainder => out_of_model "parse_args: remainder with a flag"
            end
        end
  end.

(** Lines 2127-2144: an action that was not given has its default
    converted through its [type] when the default is a string and is the
    very object the namespace holds.  That is certain for a default this
    parse stored ([applied]) whose destination the command line left
    alone.  For any other string that equals the default (one the namespace
    held before the parse, one the command line wrote) values do not tell
    whether it is the same object. *)
Fixpoint convert_defaults (acts applied : list Action) (seen : list string)
    : ST Namespace unit :=
  match acts with
  | [] => mret tt
  | a :: acts' =>
      ns ← get;
      _ ← match dflt a, type_ a with
          | Some (VStr s), Some _ =>
              if bool_decide (ns !! dest a = Some (VStr s)) then
                if bool_decide (a ∈ applied) && negb (bool_decide (dest a ∈ seen))
                then x ← get_value a s; setattr (dest a) x
                else out_of_model "parse_args: a string equal to a default"
              else mret tt
          | _, _ => mret tt
          end;
      convert_defaults acts' applied seen
  end.

(** [parse_known_args] and [parse_args] (lines 1873-1916): the defaults,
    the classification, the scan, the conversion of defaults. *)
Definition parse_known (P : Parser) (argv : list string) : ST Namespace unit :=
  applied ← set_defaults (actions P);
  _ ← classify P argv;
  seen ← consume P argv [];
  convert_defaults (actions P) applied seen.

(** Run a namespace computation on the object at [l]; what it did to the
    object stays done when it fails. *)
Definition at_loc {A} (l : loc) (m : ST Namespace A) : ST Heap A := λ h,
  match h !! l with
  | Some ns => match m ns with (r, ns', tr) => (r, <[l := ns']> h, tr) end
  | None => (OutOfModel "namespace: dangling reference", h, [])
  end.

Definition new_namespace : ST Heap loc := λ h,
  let l := fresh (dom h) in (Ok l, <[l := ∅]> h, []).

(** [parser.parse_args(argv, namespace=opts)]: with [opts = None] a new
    namespace is made; the namespace is returned. *)
Definition parse_args (P : Parser) (argv : list string) (opts : option loc)
    : ST Heap loc :=
  l ← match opts with
      | Some l => mret l
      | None => new_namespace
      end;
  _ ← emit (EvParse (prog P) argv l);
  _ ← at_loc l (parse_known P argv);
  mret l.

End Parse.

(** ** Command classes and nodes *)

(** A call an [add_arguments] override makes on its node. *)
Inductive ArgCall :=
  | AddArgumentAndConfig (args : list string) (kwargs : Kwargs)
  | AddArgument (args : list string) (kwargs : Kwargs).

(** A subclass of [BaseCommand]: its class attributes, the calls its
    [add_arguments] makes, and its [subcommands] dictionary when it has the
    attribute.  [handle_arguments] is the base method, [pass]. *)
Inductive CommandClass := Class {
  description : string;
  summary : string;
  device_option : bool;
  no_add_help : bool;
  formatter_class : string;
  config_section : option string;
  add_arguments : list ArgCall;
  subcommands : option (list (string * CommandClass))
}.

(** The object [__init__] leaves behind. *)
Inductive Node := MkNode {
  self_opts : option loc;
  prog_name : string;
  parser : Parser;
  options : loc;
  cmd : option Node
}.

Definition newline : string := String (Ascii.ascii_of_nat 10) "".

(** [str.ljust(width)] with spaces. *)
Definition ljust (width : nat) (s : string) : string :=
  s +:+ String.concat "" (replicate (width - String.length s) " ").

Fixpoint insert_sorted (k : string) (l : list string) : list string :=
  match l with
  | [] => [k]
  | x :: l' => if String.leb k x then k :: l else x :: insert_sorted k l'
  end.

Definition sorted (l : list string) : list string :=
  foldr insert_sorted [] l.

Definition summary_of (table : list (string * CommandClass)) (com : string) : string :=
  match List.find (λ kc, bool_decide (kc.1 = com)) table with
  | Some kc => summary kc.2
  | None => ""
  end.

(** Lines 130-134. *)
Definition epilog (table : list (string * CommandClass)) : string :=
  foldl (λ s com, s +:+ "  " +:+ ljust 8 com +:+ " " +:+ summary_of table com +:+ newline)
        ("commands:" +:+ newline) (sorted (map fst table)).

(** Lines 109-119. *)
Definition init_parser (c : CommandClass) (prog_name : string) : Parser :=
  ArgumentParser prog_name (description c) (formatter_class c)
    (match subcommands c with
     | Some table => Some (epilog table)
     | None => None
     end)
    (negb (no_add_help c)).

Section Command.

Variable env : Env.

Fixpoint run_add_arguments (section : option string) (calls : list ArgCall)
    : ST Parser unit :=
  match calls with
  | [] => mret tt
  | call :: calls' =>
      _ ← match call with
          | AddArgumentAndConfig args kwargs =>
              add_argument_and_config env section args kwargs
          | AddArgument args kwargs => add_argument args kwargs
          end;
      run_add_arguments section calls'
  end.

Definition remainder_kwargs : Kwargs :=
  {[ "nargs" := VStr REMAINDER; "help" := VStr SUPPRESS ]}.

Definition device_kwargs (first_drive : string) : Kwargs :=
  {[ "action" := VStr "store"; "dest" := VStr "device";
     "default" := VStr first_drive; "help" := VStr "CD-DA device" ]}.

Definition no_drives_msg : string := "No CD-DA drives found!".

Definition device_missing_msg (device : string) : string :=
  "CD-DA device " +:+ device +:+ " not found!".

(** Lines 69-81. *)
Definition add_device_option : ST Parser unit :=
  match drives env with
  | [] =>
      _ ← logger_critical no_drives_msg;
      raise (IOError no_drives_msg)
  | first :: _ => add_argument ["-d"; "--device"] (device_kwargs first)
  end.

(** Lines 62-67: the node's own arguments, then the catch-all positional
    when the class has [subcommands]. *)
Definition register_arguments (c : CommandClass) : ST Parser unit :=
  _ ← run_add_arguments (config_section c) (add_arguments c);
  match subcommands c with
  | Some _ => add_argument ["remainder"] remainder_kwargs
  | None => mret tt
  end.

(** Lines 62-81: everything [__init__] does to its parser before it
    parses. *)
Definition build_parser (c : CommandClass) : ST Parser unit :=
  _ ← register_arguments c;
  if device_option c then add_device_option else mret tt.

(** Lines 85-91. *)
Definition check_device : ST Namespace unit :=
  ns ← get;
  match ns !! "device" with
  | Some (VStr device) =>
      let resolved := realpath env device in
      _ ← setattr "device" (VStr resolved);
      if path_exists env resolved then mret tt
      else
        _ ← logger_critical (device_missing_msg resolved);
        raise (IOError (device_missing_msg resolved))
  | Some _ => raise (TypeError "expected str, bytes or os.PathLike object")
  | None => raise (AttributeError "'Namespace' object has no attribute 'device'")
  end.

Definition read_remainder : ST Namespace (list string) :=
  ns ← get;
  match ns !! "remainder" with
  | Some (VList l) => mret l
  | Some _ => out_of_model "options.remainder is not a list"
  | None => raise (AttributeError "'Namespace' object has no attribute 'remainder'")
  end.

(** Lines 57-93: up to and including [handle_arguments]. *)
Definition prologue (c : CommandClass) (argv : list string)
    (prog_name : string) (opts : option loc) : ST Heap (Parser * loc) :=
  _ ← emit (EvInit prog_name argv opts);
  '(_, parser) ← on_local (build_parser c) (init_parser c prog_name);
  options ← parse_args env parser argv opts;
  _ ← (if device_option c then at_loc options check_device else mret tt);
  mret (parser, options).

(** [BaseCommand.__init__] (lines 57-107).  The child is an instance of the
    class the table gives for the first remaining token. *)
Fixpoint init (c : CommandClass) (argv : list string) (prog_name : string)
    (opts : option loc) {struct c} : ST Heap Node :=
  '(parser, options) ← prologue c argv prog_name opts;
  let self := MkNode opts prog_name parser options in
  match subcommands c with
  | None => mret (self None)
  | Some table =>
      remainder ← at_loc options read_remainder;
      match remainder with
      | [] =>
          _ ← emit (EvPrintHelp (prog parser));
          sys_exit 0
      | name :: tail =>
          (fix dispatch (entries : list (string * CommandClass)) : ST Heap Node :=
             match entries with
             | [] =>
                 _ ← logger_critical ("incorrect subcommand: " +:+ name);
                 sys_exit 1
             | (key, child_class) :: entries' =>
                 if bool_decide (key = name) then
                   child ← init child_class tail (prog_name +:+ " " +:+ name)
                                (Some options);
                   mret (self (Some child))
                 else dispatch entries'
             end) table
      end
  end.

End Command.

(** What a caller can tell an abort by without reading its message: the
    code of a [sys.exit], the class of any other exception. *)
Inductive status :=
  | Exit (code : Z)
  | Uncaught (class : string).

Definition status_of (e : exn) : status :=
  match e with
  | SystemExit code => Exit code
  | IOError _ => Uncaught "IOError"
  | SyntaxError _ => Uncaught "SyntaxError"
  | TypeError _ => Uncaught "TypeError"
  | AttributeError _ => Uncaught "AttributeError"
  | ArgumentError _ => Uncaught "ArgumentError"
  end.

(** The table look-up of lines 99 and 103. *)
Fixpoint subcommand (table : list (string * CommandClass)) (name : string)
    : option CommandClass :=
  match table with
  | [] => None
  | (key, child_class) :: table' =>
      if bool_decide (key = name) then Some child_class
      else subcommand table' name
  end.

(** The nodes an instance leads to: itself, its [cmd], the [cmd] of that
    one, down to the node that has none. *)
Fixpoint chain (n : Node) : list Node :=
  n :: match cmd n with
       | Some child => chain child
       | None => []
       end.

(** The namespace object a call of [__init__] works on: [opts] when one is
    passed, else the one [parse_args] creates. *)
Definition namespace_of (opts : option loc) (h : Heap) : loc :=
  match opts with
  | Some l => l
  | None => fresh (dom h)
  end.

(** [BaseCommand.do] (lines 127-128): [return self.cmd.do()].  The method
    [do] of the child is the one its class has, looked up when the call is
    made: [child_do].  An instance without the attribute [cmd] raises
    [AttributeError]. *)
Definition do {A} (child_do : Node → result A) (self : Node) : result A :=
  match cmd self with
  | Some child => child_do child
  | None => Raise (AttributeError "object has no attribute 'cmd'")
  end.

(** The constructors a trace enters, by program name, in order. *)
Definition entered (tr : list event) : list string :=
  omap (λ e, match e with
             | EvInit p _ _ => Some p
             | _ => None
             end) tr.

(** What the end of a trace says about an exit status: the help was
    printed, an incorrect subcommand was logged, or [parse_args] was left by
    its own [error]. *)
Definition exit_cause (code : Z) (tr : list event) : Prop :=
  (code = 0 ∧ ∃ p, last tr = Some (EvPrintHelp p))
  ∨ (code = 1
     ∧ ∃ first, last tr = Some (EvLog CRITICAL ("incorrect subcommand: " +:+ first)))
  ∨ (code = 2 ∧ ∃ p a l, last tr = Some (EvParse p a l)).

(** An [add_arguments] call that goes through the configuration. *)
Definition uses_config (call : ArgCall) : bool :=
  match call with
  | AddArgumentAndConfig _ _ => true
  | AddArgument _ _ => false
  end.

(** ** The task boundary *)

Module TaskRunner.

(** An error object: its identity, its kind (the class) and its text. *)
Record Error := {
  ident : nat;
  error_kind : string;
  error_text : string
}.

(** Modelled from the spec: [morituri.common.task] is not among the
    sources.  Section 3: a Task "has a terminal state of success or
    exception; exposes the captured error when in the exception state";
    section 5: it may "step through work via a cooperative mechanism".  The
    underlying operation is the sequence of its steps, each of which makes
    progress or raises. *)
Inductive Step :=
  | Progress (note : string)
  | Fails (e : Error).

Record Task := {
  task_name : string;
  operation : list Step
}.

Inductive TaskState :=
  | Succeeded
  | Excepted (e : Error).

(** Modelled from the spec: a TaskException "wraps the Task's captured
    error; holds a reference to the originating Task". *)
Record TaskException := {
  exception : Error;
  task : Task
}.

Inductive Raised :=
  | Raw (e : Error)
  | Wrapped (te : TaskException).

Inductive Outcome :=
  | Returns
  | Raises (r : Raised).

(** Drive the operation to its terminal state; [verbose] only adds the
    progress notes to the output. *)
Fixpoint drive (verbose : bool) (steps : list Step) : TaskState * list string :=
  match steps with
  | [] => (Succeeded, [])
  | Progress note :: rest =>
      let '(state, out) := drive verbose rest in
      (state, if verbose then note :: out else out)
  | Fails e :: _ => (Excepted e, [])
  end.

(** Modelled from the spec: section 4.3, [run(task, verbose)] "drives task
    to a terminal state and returns normally on success"; on an error it
    "constructs a TaskException wrapping the captured error ... and raises
    that instead". *)
Definition run (t : Task) (verbose : bool) : Outcome * list string :=
  match drive verbose (operation t) with
  | (Succeeded, out) => (Returns, out)
  | (Excepted e, out) => (Raises (Wrapped {| exception := e; task := t |}), out)
  end.

(** The error the operation raises, if it raises: that of its first failing
    step. *)
Fixpoint raised_by (steps : list Step) : option Error :=
  match steps with
  | [] => None
  | Progress _ :: rest => raised_by rest
  | Fails e :: _ => Some e
  end.

(** The task of [PathTestCase._testSuffix]: encoding an empty temporary file
    fails with a [gst.QueryError]. *)
Definition encodetask (path : string) : Task :=
  {| task_name := "EncodeTask " +:+ path;
     operation := [Progress "prerolling";
                   Fails {| ident := 1; error_kind := "gst.QueryError";
                            error_text := "query failed" |}] |}.

End TaskRunner.

(** ** Vocabulary of the statements *)

(** The three things a call works out from its keyword arguments. *)
Definition section_for (cs : option string) (kwargs : Kwargs) : pyval :=
  match kwargs !! "section" with
  | Some s => s
  | None => match cs with Some c => VStr c | None => VStr "main" end
  end.

Definition code_default (kwargs : Kwargs) : pyval :=
  default VNone (kwargs !! "default").

Definition forwarded (kwargs : Kwargs) : Kwargs :=
  delete "default" (delete "section" kwargs).


Definition is_parse (e : event) : bool :=
  match e with EvParse _ _ _ => true | _ => false end.

Definition is_init (e : event) : bool :=
  match e with EvInit _ _ _ => true | _ => false end.

Definition is_config_get (e : event) : bool :=
  match e with EvConfigGet _ _ _ _ => true | _ => false end.

(** A trace with no constructor entry in it. *)
Definition quiet (tr : list event) : Prop :=
  Forall (λ e, is_init e = false) tr.

(** What [get_value] makes of a command-line string. *)
Definition value_of (env : Env) (a : Action) (v : string) : option pyval :=
  match type_ a with
  | None => Some (VStr v)
  | Some t => convert env t v
  end.

(** The value the option part of [argv] gives to the destination [d]: that
    of the last option on it whose action writes [d].  [None]: no option on
    [argv] writes [d].  The option part ends where the remainder starts. *)
Fixpoint given (env : Env) (P : Parser) (d : string) (argv : list string)
    : option pyval :=
  match argv with
  | [] => None
  | t :: rest =>
      if is_argument t then None
      else
        match find_flag P t with
        | Some a =>
            match kind a, rest with
            | Store, v :: rest' =>
                match given env P d rest' with
                | Some later => Some later
                | None => if bool_decide (dest a = d) then value_of env a v else None
                end
            | StoreConst c, _ =>
                match given env P d rest with
                | Some later => Some later
                | None => if bool_decide (dest a = d) then Some c else None
                end
            | _, _ => None
            end
        | None => None
        end
  end.

(** The command lines the model reads the way [argparse] does: every token
    the scan comes to is an option string as it was registered, the value of
    a [store] option (an argument token), [--], or the argument token that
    starts the part for the positionals.  No abbreviation, no value attached
    with [=] or to a short option, no value that begins with [-], no option
    that is not registered is consumed. *)
Fixpoint in_fragment (P : Parser) (argv : list string) : bool :=
  match argv with
  | [] => true
  | t :: rest =>
      if is_argument t then
        negb (bool_decide (t ∈ registered_flags P))
        && match remainder_action P with
           | Some _ => true
           | None => in_fragment P rest
           end
      else
        match find_flag P t with
        | None => bool_decide (t = "--")
        | Some a =>
            negb (bool_decide (t = "--"))
            && match kind a with
               | Help => true
               | StoreConst _ => in_fragment P rest
               | Store =>
                   match rest with
                   | [] => true
                   | v :: rest' =>
                       if is_argument v
                       then negb (bool_decide (v ∈ registered_flags P))
                            && in_fragment P rest'
                       else bool_decide (v ∈ registered_flags P)
                   end
               | Remainder => false
               end
        end
  end.

(** A default that is a string is read through the [type] of the option. *)
Definition through_type (env : Env) (ty : option pyval) (v : pyval) : option pyval :=
  match v, ty with
  | VStr s, Some (VType t) => convert env t s
  | _, _ => Some v
  end.

(** The precedence of C1 for one option: it was registered on [P0] by
    [add_argument_and_config] with destination [d], the look-up it made is
    the recorded one, and [P], the parser as it is when it parses, still has
    it.  The value of [d] after parsing [argv] into [ns] is the one the
    command line gives, else the stored one, else the code default [D]. *)
Definition resolved_by_precedence (env : Env) (cs : option string)
    (args : list string) (kwargs : Kwargs) (d : string) (P0 P : Parser)
    (argv : list string) (ns : Namespace) : Prop :=
  ∀ P1 sfx section D ns' tr,
    add_argument_and_config env cs args kwargs P0
      = (Ok tt, P1, [EvConfigGet sfx section (VStr d) D]) →
    actions P1 `prefix_of` actions P →
    parse_known env P argv ns = (Ok tt, ns', tr) →
    D = code_default kwargs
    ∧ ns' !! d =
      match given env P d argv with
      | Some F => Some F
      | None =>
          through_type env (kwargs !! "type")
            match typed_get (config env) sfx section (VStr d) with
            | Some V => V
            | None => D
            end
      end.

(** ** A sample installation *)

Module Sample.

Definition digit (c : Ascii.ascii) : option Z :=
  let n := Z.of_nat (Ascii.nat_of_ascii c) in
  if ((48 <=? n)%Z && (n <=? 57)%Z) then Some (n - 48)%Z else None.

Fixpoint decimal (acc : Z) (s : string) : option Z :=
  match s with
  | EmptyString => Some acc
  | String c s' => d ← digit c; decimal (10 * acc + d)%Z s'
  end.

(** [int] on a string of decimal digits, [str] on any string. *)
Definition to_value (t : pytype) (s : string) : option pyval :=
  match t with
  | Tint => if bool_decide (s = "") then None else VInt <$> decimal 0 s
  | Tstr => Some (VStr s)
  | _ => None
  end.

(** A configuration file with the one entry [bitrate = 192] in section
    [encode]. *)
Definition store : ConfigStore :=
  {| typed_get := λ suffix section key,
       if bool_decide (section = VStr "encode" ∧ key = VStr "bitrate")
       then if bool_decide (suffix = "int") then Some (VInt 192)
            else Some (VStr "192")
       else None |}.

Definition no_store : ConfigStore := {| typed_get := λ _ _ _, None |}.

(** One drive, [/dev/cdrom], a link to [/dev/sr0], which exists. *)
Definition link (path : string) : string :=
  if bool_decide (path = "/dev/cdrom") then "/dev/sr0" else path.

Definition env : Env :=
  {| config := store; drives := ["/dev/cdrom"]; realpath := link;
     path_exists := λ path, bool_decide (path = "/dev/sr0");
     convert := to_value |}.

(** The same without the configuration file. *)
Definition env_no_config : Env :=
  {| config := no_store; drives := ["/dev/cdrom"]; realpath := link;
     path_exists := λ path, bool_decide (path = "/dev/sr0");
     convert := to_value |}.

(** No drive at all. *)
Definition env_no_drive : Env :=
  {| config := store; drives := []; realpath := link;
     path_exists := λ _, false; convert := to_value |}.

(** A drive is listed, but the path it resolves to is gone. *)
Definition env_unplugged : Env :=
  {| config := store; drives := ["/dev/cdrom"]; realpath := link;
     path_exists := λ _, false; convert := to_value |}.

Definition bitrate_kwargs : Kwargs :=
  {[ "dest" := VStr "bitrate"; "type" := VType Tint; "default" := VInt 320 ]}.

(** The command of the scenario in section 8 of the spec. *)
Definition encode : CommandClass :=
  {| description := "Encode audio"; summary := "encode audio";
     device_option := false; no_add_help := false;
     formatter_class := "RawDescriptionHelpFormatter";
     config_section := Some "encode";
     add_arguments := [AddArgumentAndConfig ["--bitrate"] bitrate_kwargs];
     subcommands := None |}.

Definition whipper : CommandClass :=
  {| description := "whipper"; summary := "";
     device_option := false; no_add_help := false;
     formatter_class := "RawDescriptionHelpFormatter";
     config_section := None;
     add_arguments := [];
     subcommands := Some [("encode", encode)] |}.

(** A root that reads the drive. *)
Definition rip : CommandClass :=
  {| description := "rip"; summary := "rip a disc";
     device_option := true; no_add_help := false;
     formatter_class := "RawDescriptionHelpFormatter";
     config_section := None;
     add_arguments := [];
     subcommands := Some [("encode", encode)] |}.

(** A command group with arguments of its own and the device option. *)
Definition cd : CommandClass :=
  {| description := "cd"; summary := "handle a disc";
     device_option := true; no_add_help := false;
     formatter_class := "RawDescriptionHelpFormatter";
     config_section := Some "encode";
     add_arguments :=
       [AddArgumentAndConfig ["--bitrate"] bitrate_kwargs;
        AddArgument ["--eject"]
          {[ "action" := VStr "store_true"; "dest" := VStr "eject" ]}];
     subcommands := Some [("encode", encode)] |}.

(** A root that declares [--bitrate] itself, with its own default. *)
Definition whipper_with_bitrate : CommandClass :=
  {| description := "whipper"; summary := "";
     device_option := false; no_add_help := false;
     formatter_class := "RawDescriptionHelpFormatter";
     config_section := None;
     add_arguments :=
       [AddArgumentAndConfig ["--bitrate"]
          {[ "dest" := VStr "bitrate"; "type" := VType Tint;
             "default" := VInt 64 ]}];
     subcommands := Some [("encode", encode)] |}.

(** A registration that forgets [dest]. *)
Definition no_dest_kwargs : Kwargs :=
  {[ "type" := VType Tint; "default" := VInt 320 ]}.

Definition careless : CommandClass :=
  {| description := "careless"; summary := "";
     device_option := false; no_add_help := false;
     formatter_class := "RawDescriptionHelpFormatter";
     config_section := None;
     add_arguments := [AddArgumentAndConfig ["--bitrate"] no_dest_kwargs];
     subcommands := None |}.

End Sample.

Module SampleParsers.

(** The parser of [encode] before and after its [add_arguments]. *)
Definition encode_parser0 : Parser :=
  init_parser Sample.encode "whipper encode".

Definition encode_parser : Parser :=
  (add_argument_and_config Sample.env (Some "encode") ["--bitrate"]
     Sample.bitrate_kwargs encode_parser0).1.2.

(** The parser of the root when it parses. *)
Definition whipper_parser : Parser :=
  (build_parser Sample.env Sample.whipper
     (init_parser Sample.whipper "whipper")).1.2.

End SampleParsers.

(** The [bitrate] a run of [whipper encode ...] ends with. *)
Definition bitrate_after (env : Env) (argv : list string) : option pyval :=
  (init env Sample.whipper ("encode" :: argv) "whipper" None ∅).1.2
    !! 0%nat ≫= (.!! "bitrate").

(** * Properties *)

(** ** The task boundary *)

Lemma drive_state verbose steps :
  (TaskRunner.drive verbose steps).1 =
  match TaskRunner.raised_by steps with
  | Some e => TaskRunner.Excepted e
  | None => TaskRunner.Succeeded
  end.
Proof.
  induction steps as [|[note|e] rest IH]; simpl; [done| |done].
  destruct (TaskRunner.drive verbose rest) as [state out]; simpl in *.
  exact IH.
Qed.

(** C2.  When the operation of a task raises the error [E], [run] raises a
    TaskException whose [exception] field is [E] itself (same identity, same
    kind) and whose task is the one that was run; it neither raises [E]
    unwrapped nor returns as if nothing had happened.  When the operation
    raises nothing, [run] returns normally.  [verbose] changes neither. *)
Theorem run_wraps_the_error (t : TaskRunner.Task) (verbose : bool) :
  match TaskRunner.raised_by (TaskRunner.operation t) with
  | Some E =>
      (TaskRunner.run t verbose).1 =
        TaskRunner.Raises
          (TaskRunner.Wrapped {| TaskRunner.exception := E; TaskRunner.task := t |})
      ∧ (TaskRunner.run t verbose).1 ≠ TaskRunner.Raises (TaskRunner.Raw E)
      ∧ (TaskRunner.run t verbose).1 ≠ TaskRunner.Returns
  | None => (TaskRunner.run t verbose).1 = TaskRunner.Returns
  end.
Proof.
  unfold TaskRunner.run.
  pose proof (drive_state verbose (TaskRunner.operation t)) as Hd.
  destruct (TaskRunner.drive verbose (TaskRunner.operation t)) as [state out].
  simpl in Hd. subst state.
  destruct (TaskRunner.raised_by (TaskRunner.operation t)) as [E|]; simpl.
  - repeat split; congruence.
  - reflexivity.
Qed.

(** The test of [test_common_encode.py]: the runner raises a TaskException
    whose [exception] is the [gst.QueryError] of the task. *)
Example testSuffix path :
  ∃ te, (TaskRunner.run (TaskRunner.encodetask path) false).1
          = TaskRunner.Raises (TaskRunner.Wrapped te)
        ∧ TaskRunner.error_kind (TaskRunner.exception te) = "gst.QueryError".
Proof. eexists. split; reflexivity. Qed.

(** ** Registration *)

Lemma bind_ok {S A B} (m : ST S A) (k : A → ST S B) s a s1 t1 :
  m s = (Ok a, s1, t1) →
  (m ≫= k) s = let '(r, s2, t2) := k a s1 in (r, s2, t1 ++ t2).
Proof. intros H. unfold mbind, ST_bind. rewrite H. reflexivity. Qed.

Lemma bind_not_ok {S A B} (m : ST S A) (k : A → ST S B) s r s1 t1 :
  m s = (r, s1, t1) → (∀ a, r ≠ Ok a) →
  ∃ r', (m ≫= k) s = (r', s1, t1) ∧ (∀ b, r' ≠ Ok b)
        ∧ match r, r' with
          | Raise e, Raise e' => e = e'
          | IllFormed n, IllFormed n' => n = n'
          | OutOfModel w, OutOfModel w' => w = w'
          | _, _ => False
          end.
Proof.
  intros H Hr. unfold mbind, ST_bind. rewrite H.
  destruct r; [by destruct (Hr a)|..]; eexists; (split; [reflexivity|]); done.
Qed.

Lemma missing_dest_call env cs args (kwargs : Kwargs) P :
  kwargs !! "dest" = None →
  add_argument_and_config env cs args kwargs P
  = (Raise (SyntaxError "parser requires a 'dest' argument"), P, []).
Proof.
  intros Hd. unfold add_argument_and_config.
  destruct (kwargs !! "section") as [s|] eqn:Hs;
    destruct (kwargs !! "default") as [d|] eqn:Hdf;
    rewrite ?lookup_delete_ne, ?Hdf by done;
    rewrite ?lookup_delete_ne, ?Hd by done; reflexivity.
Qed.

Lemma forwarded_lookup (kwargs : Kwargs) k :
  k ≠ "section" → k ≠ "default" → forwarded kwargs !! k = kwargs !! k.
Proof. intros. unfold forwarded. by rewrite !lookup_delete_ne. Qed.

Lemma call_unfold env cs args (kwargs : Kwargs) key P :
  kwargs !! "dest" = Some key →
  add_argument_and_config env cs args kwargs P
  = (typesuffix ← typesuffix_of (forwarded kwargs);
     effective ← getter_or_default env typesuffix (section_for cs kwargs) key
                   (code_default kwargs);
     add_argument args (<["default" := effective]> (forwarded kwargs))) P.
Proof.
  intros Hd. unfold add_argument_and_config, section_for, code_default, forwarded.
  destruct (kwargs !! "section") as [s|] eqn:Hs;
    destruct (kwargs !! "default") as [d|] eqn:Hdf; simpl;
    rewrite ?lookup_delete_ne, ?Hdf by done;
    rewrite ?lookup_delete_ne, ?Hd by done;
    rewrite ?(delete_id (delete "section" kwargs) "default"),
      ?(delete_id kwargs "section"), ?(delete_id kwargs "default")
      by (rewrite ?lookup_delete_ne by done; done);
    reflexivity.
Qed.

Lemma typesuffix_of_cases {S} (kwargs : Kwargs) (s : S) :
  typesuffix_of kwargs s =
  match kwargs !! "type" with
  | None => (Ok "", s, [])
  | Some (VType Tint) => (Ok "int", s, [])
  | Some (VType Tfloat) => (Ok "float", s, [])
  | Some _ => (IllFormed 172, s, [])
  end.
Proof.
  unfold typesuffix_of.
  destruct (kwargs !! "type") as [[| | | | | |[]]|]; try reflexivity.
Qed.

Lemma add_argument_trace args kwargs P r P' tr :
  add_argument args kwargs P = (r, P', tr) →
  tr = [] ∧ match r with Ok _ => True | _ => P' = P end.
Proof.
  unfold add_argument. intros H.
  repeat match type of H with
         | context [match ?x with _ => _ end] => destruct x
         | context [if ?x then _ else _] => destruct x
         end; by simplify_eq.
Qed.

(** What a call of [add_argument_and_config] amounts to: either it stops
    before the look-up, leaving the parser as it was, or it makes exactly
    one look-up and hands [args] and the forwarded keywords to
    [add_argument]. *)
Lemma call_cases env cs args (kwargs : Kwargs) P :
  let call := add_argument_and_config env cs args kwargs P in
  (call.2 = [] ∧ call.1.2 = P ∧ ∀ u, call.1.1 ≠ Ok u)
  ∨ ∃ sfx key,
      kwargs !! "dest" = Some key
      ∧ typesuffix_of (S:=Parser) (forwarded kwargs) P = (Ok sfx, P, [])
      ∧ call.2 = [EvConfigGet sfx (section_for cs kwargs) key (code_default kwargs)]
      ∧ call.1 = (add_argument args
                    (<["default" := config_lookup (config env) sfx
                                      (section_for cs kwargs) key (code_default kwargs)]>
                       (forwarded kwargs)) P).1.
Proof.
  intros call. subst call.
  destruct (kwargs !! "dest") as [key|] eqn:Hd.
  2: { left. rewrite missing_dest_call by done. done. }
  destruct (add_argument_and_config env cs args kwargs P) as [[r P'] tr] eqn:Hc.
  rewrite (call_unfold _ _ _ _ key) in Hc by done.
  unfold mbind, ST_bind in Hc. rewrite typesuffix_of_cases in Hc.
  destruct (forwarded kwargs !! "type") as [[| | | | | |[]]|] eqn:Ht;
    try (left; by simplify_eq); right;
    (eexists _, key; split; [done|]; split; [by rewrite typesuffix_of_cases, Ht|]);
    unfold getter_or_default, mbind, ST_bind, emit, mret, ST_ret in Hc; simpl in Hc;
    match type of Hc with
    | context [add_argument ?a ?k ?p] =>
        destruct (add_argument a k p) as [[r0 P0] tr0] eqn:Ha;
        destruct (add_argument_trace _ _ _ _ _ _ Ha) as [-> _]
    end; by simplify_eq.
Qed.

Lemma make_optional_ok flags (kwargs : Kwargs) a :
  make_optional flags kwargs = Ok a →
  option_strings a = flags ∧ received a = kwargs
  ∧ kwargs !! "dest" = Some (VStr (dest a))
  ∧ kind_of kwargs = Some (kind a)
  ∧ type_of (kind a) kwargs = Some (type_ a)
  ∧ dflt a = default_of (kind a) kwargs
  ∧ kind a ≠ Remainder.
Proof.
  unfold make_optional. intros H.
  repeat case_match; simplify_eq; simpl.
  split_and!; try done.
  intros ->. unfold kind_of in *. repeat case_match; simplify_eq.
Qed.

Lemma make_positional_ok name (kwargs : Kwargs) a :
  make_positional name kwargs = Ok a →
  option_strings a = [] ∧ received a = kwargs ∧ dest a = name
  ∧ kind a = Remainder ∧ type_ a = None
  ∧ kwargs !! "default" = None ∧ kwargs !! "dest" = None.
Proof.
  unfold make_positional. intros H. case_match eqn:Hc; simplify_eq; simpl.
  apply andb_prop in Hc as [Hc _]. apply andb_prop in Hc as [_ Hc].
  apply bool_decide_eq_true in Hc.
  split_and!; try done; apply not_elem_of_dom; intros Hin;
    apply Hc in Hin; unfold positional_keys in Hin; set_solver.
Qed.

Lemma add_argument_ok args (kwargs : Kwargs) P u P' tr :
  add_argument args kwargs P = (Ok u, P', tr) →
  ∃ a, P' = with_action P a ∧ tr = [] ∧ received a = kwargs
       ∧ (∀ f, f ∈ option_strings a → f ∉ registered_flags P)
       ∧ ((make_optional args kwargs = Ok a ∧ args ≠ [])
          ∨ (∃ name, args = [name] ∧ make_positional name kwargs = Ok a)).
Proof.
  unfold add_argument. intros H.
  match type of H with
  | context [match ?m with Ok _ => _ | _ => _ end] => destruct m as [a| | |] eqn:Hm
  end; try by simplify_eq.
  destruct (existsb _ _) eqn:Hex; simplify_eq.
  exists a. split_and!; try done.
  - destruct args as [|x [|y l]]; simplify_eq.
    + case_match; [apply make_optional_ok in Hm|apply make_positional_ok in Hm];
        naive_solver.
    + case_match; simplify_eq. apply make_optional_ok in Hm. naive_solver.
  - intros f Hf Hin.
    assert (existsb (λ f, bool_decide (f ∈ registered_flags P)) (option_strings a) = true)
      as Habs; [|congruence].
    apply existsb_exists. exists f. split; [by apply list_elem_of_In|].
    by apply bool_decide_eq_true.
  - destruct args as [|x [|y l]]; simplify_eq.
    + case_match; [left|right]; naive_solver.
    + case_match; simplify_eq. by left.
Qed.

(** C8.  The section a call of [add_argument_and_config] looks up in the
    store is the [section] keyword when one is passed, else the
    [config_section] of the command when it is set, else ["main"]; the call
    makes no other look-up. *)
Theorem lookup_section env cs args (kwargs : Kwargs) P sfx section key d :
  EvConfigGet sfx section key d ∈ (add_argument_and_config env cs args kwargs P).2 →
  section = match kwargs !! "section" with
            | Some s => s
            | None => match cs with
                      | Some c => VStr c
                      | None => VStr "main"
                      end
            end
  ∧ (add_argument_and_config env cs args kwargs P).2
    = [EvConfigGet sfx section key d].
Proof.
  intros Hin.
  destruct (call_cases env cs args kwargs P) as [(Hnil & _)|(sfx' & key' & _ & _ & Htr & _)].
  - rewrite Hnil in Hin. by apply elem_of_nil in Hin.
  - rewrite Htr in Hin |- *. apply list_elem_of_singleton in Hin.
    by simplify_eq.
Qed.

(** The argument a successful call registers. *)
Lemma registered env cs args (kwargs : Kwargs) P P' tr :
  add_argument_and_config env cs args kwargs P = (Ok tt, P', tr) →
  ∃ a sfx key,
    actions P' = actions P ++ [a]
    ∧ option_strings a = args
    ∧ tr = [EvConfigGet sfx (section_for cs kwargs) key (code_default kwargs)]
    ∧ kwargs !! "dest" = Some key
    ∧ key = VStr (dest a)
    ∧ kind a ≠ Remainder
    ∧ type_of (kind a) kwargs = Some (type_ a)
    ∧ received a !! "section" = None
    ∧ received a !! "default"
      = Some (config_lookup (config env) sfx (section_for cs kwargs) key
                (code_default kwargs))
    ∧ dflt a = received a !! "default"
    ∧ ∀ k, k ≠ "section" → k ≠ "default" → received a !! k = kwargs !! k.
Proof.
  intros Hc.
  destruct (call_cases env cs args kwargs P) as [(_ & _ & Hno)|(sfx & key & Hd & _ & Htr & Hres)].
  { rewrite Hc in Hno. by destruct (Hno tt). }
  rewrite Hc in Htr, Hres. simpl in Htr, Hres.
  destruct (add_argument args _ P) as [[r P0] tr0] eqn:Ha. simpl in Hres.
  simplify_eq.
  apply add_argument_ok in Ha as (a & -> & _ & Hrec & _ & Hmade).
  exists a, sfx, key.
  destruct Hmade as [[Hopt _]|(name & -> & Hpos)].
  2: { apply make_positional_ok in Hpos as (_ & _ & _ & _ & _ & Hdef & _).
       by rewrite lookup_insert_eq in Hdef. }
  apply make_optional_ok in Hopt as (Hflags & _ & Hdest & _ & Hty & Hdflt & Hkind).
  rewrite lookup_insert_ne in Hdest by done.
  rewrite forwarded_lookup in Hdest by done.
  rewrite Hrec. split_and!; try done.
  - congruence.
  - unfold type_of in *. rewrite lookup_insert_ne in Hty by done.
    by rewrite forwarded_lookup in Hty by done.
  - rewrite lookup_insert_ne by done. unfold forwarded.
    rewrite lookup_delete_ne by done. apply lookup_delete_eq.
  - apply lookup_insert_eq.
  - rewrite Hdflt. unfold default_of. by rewrite lookup_insert_eq.
  - intros k Hs Hdf. rewrite lookup_insert_ne by done. by apply forwarded_lookup.
Qed.

(** C10.  A call that succeeds registers one argument: the parser gets
    [args] as they are and the keyword arguments without ["section"] and
    with the effective default, the value of the store look-up, in the
    place of the code default; every other keyword is passed as given. *)
Theorem keywords_forwarded env cs args (kwargs : Kwargs) P P' tr :
  add_argument_and_config env cs args kwargs P = (Ok tt, P', tr) →
  ∃ a sfx key,
    actions P' = actions P ++ [a]
    ∧ option_strings a = args
    ∧ tr = [EvConfigGet sfx (section_for cs kwargs) key (code_default kwargs)]
    ∧ received a !! "section" = None
    ∧ received a !! "default"
      = Some (config_lookup (config env) sfx (section_for cs kwargs) key
                (code_default kwargs))
    ∧ dflt a = received a !! "default"
    ∧ ∀ k, k ≠ "section" → k ≠ "default" → received a !! k = kwargs !! k.
Proof.
  intros Hc. apply registered in Hc as (a & sfx & key & H). exists a, sfx, key.
  naive_solver.
Qed.

(** ** Construction of a node *)

Lemma bind_ext {S A B} (m : ST S A) (k1 k2 : A → ST S B) s :
  (∀ a s', k1 a s' = k2 a s') → (m ≫= k1) s = (m ≫= k2) s.
Proof.
  intros H. unfold mbind, ST_bind.
  destruct (m s) as [[[a| | |] s1] t1]; try done. by rewrite H.
Qed.

(** [__init__] with the table look-up written as [subcommand]. *)
Lemma init_unfold env c argv name opts h :
  init env c argv name opts h =
  ('(parser, options) ← prologue env c argv name opts;
   match subcommands c with
   | None => mret (MkNode opts name parser options None)
   | Some table =>
       remainder ← at_loc options read_remainder;
       match remainder with
       | [] => _ ← emit (EvPrintHelp (prog parser)); sys_exit 0
       | first :: tail =>
           match subcommand table first with
           | None =>
               _ ← logger_critical ("incorrect subcommand: " +:+ first);
               sys_exit 1
           | Some child_class =>
               child ← init env child_class tail (name +:+ " " +:+ first)
                          (Some options);
               mret (MkNode opts name parser options (Some child))
           end
       end
   end) h.
Proof.
  destruct c as [descr summ dev nohelp fmt cs calls subs].
  cbn [init subcommands].
  apply bind_ext. intros [P l] h1.
  destruct subs as [table|]; [|done].
  apply bind_ext. intros rem h2.
  destruct rem as [|first tail]; [done|].
  induction table as [|[key child] table IH]; [done|].
  cbn [subcommand]. case_bool_decide; [done|apply IH].
Qed.

(** ** Parsing *)

Ltac run_in H :=
  repeat progress
    (simpl in H;
     unfold mbind, ST_bind, mret, ST_ret, setattr, emit, get, sys_exit,
       parser_error, raise, out_of_model, logger_critical in H);
  simpl in H.

Ltac seen_tac :=
  split;
  [ subst; by rewrite ?lookup_insert_eq, ?lookup_insert_ne by done
  | rewrite ?elem_of_cons, ?is_Some_alt; naive_solver ].

Lemma get_value_of env a v (ns : Namespace) :
  get_value env a v ns =
  match value_of env a v with
  | Some x => (Ok x, ns, [])
  | None => (Raise (SystemExit 2), ns, [])
  end.
Proof.
  unfold get_value, value_of. destruct (type_ a) as [t|]; [|done].
  by destruct (convert env t v).
Qed.

(** What the scan does to a destination other than the remainder's. *)
Lemma consume_spec env P d :
  (∀ r, remainder_action P = Some r → dest r ≠ d) →
  ∀ n argv seen (ns : Namespace) seen' ns' tr,
    (length argv ≤ n)%nat →
    consume env P argv seen ns = (Ok seen', ns', tr) →
    ns' !! d = match given env P d argv with
               | Some x => Some x
               | None => ns !! d
               end
    ∧ (d ∈ seen' ↔ d ∈ seen ∨ is_Some (given env P d argv)).
Proof.
  intros Hrem n.
  induction n as [|n IH]; intros argv seen ns seen' ns' tr Hlen Hc.
  - destruct argv; [|simpl in Hlen; lia]. simpl in *.
    destruct (remainder_action P) as [r|] eqn:Hr; run_in Hc; simplify_eq.
    + rewrite lookup_insert_ne by (by apply Hrem). split; [done|].
      split; [by left|]. intros [?|[? ?]]; done.
    + split; [done|]. split; [by left|]. intros [?|[? ?]]; done.
  - destruct argv as [|t rest].
    { apply (IH [] seen ns seen' ns' tr); [simpl; lia|done]. }
    simpl in Hc |- *. destruct (is_argument t) eqn:Ht.
    { case_bool_decide; [by run_in Hc|].
      destruct (remainder_action P) as [r|] eqn:Hr.
      - run_in Hc; simplify_eq.
        rewrite lookup_insert_ne by (by apply Hrem). split; [done|].
        split; [by left|]. intros [?|[? ?]]; done.
      - unfold mbind, ST_bind in Hc.
        destruct (consume env P rest seen ns) as [[[seen1| | |] ns1] tr1];
          by run_in Hc. }
    destruct (find_flag P t) as [a|] eqn:Hf.
    2: { case_bool_decide; [|by run_in Hc].
         destruct (remainder_action P) as [r|] eqn:Hr; run_in Hc; simplify_eq.
         rewrite lookup_insert_ne by (by apply Hrem). split; [done|].
         split; [by left|]. intros [?|[? ?]]; done. }
    case_bool_decide; [by run_in Hc|].
    destruct (kind a) eqn:Hk; try by run_in Hc.
    + (* store *)
      destruct rest as [|v rest']; [by run_in Hc|].
      destruct (is_argument v) eqn:Hv.
      2: { case_bool_decide; by run_in Hc. }
      case_bool_decide; [by run_in Hc|].
      unfold mbind at 1, ST_bind in Hc. rewrite get_value_of in Hc.
      destruct (value_of env a v) as [x|] eqn:Hx; [|done].
      unfold mbind at 1, ST_bind, setattr in Hc.
      destruct (consume env P rest' (dest a :: seen) (<[dest a:=x]> ns))
        as [[[seen1| | |] ns1] tr1] eqn:Hrec; simplify_eq.
      apply IH in Hrec as [Hval Hseen]; [|simpl in Hlen; lia].
      rewrite Hval, Hseen.
      destruct (given env P d rest') as [later|]; [|case_bool_decide as Hd];
        seen_tac.
    + (* store_true, store_false *)
      unfold mbind at 1, ST_bind, setattr in Hc.
      destruct (consume env P rest (dest a :: seen) (<[dest a:=v]> ns))
        as [[[seen1| | |] ns1] tr1] eqn:Hrec; simplify_eq.
      apply IH in Hrec as [Hval Hseen]; [|simpl in Hlen; lia].
      rewrite Hval, Hseen.
      destruct (given env P d rest) as [later|]; [|case_bool_decide as Hd];
        seen_tac.
Qed.

(** Defaults: an attribute the namespace has is kept; an action whose
    default is stored is the first one with its destination. *)
Lemma set_defaults_spec acts (ns : Namespace) :
  ∃ applied ns1,
    set_defaults acts ns = (Ok applied, ns1, [])
    ∧ (∀ b, b ∈ applied →
         b ∈ acts ∧ ns !! dest b = None ∧ ns1 !! dest b = dflt b ∧ is_Some (dflt b))
    ∧ NoDup (dest <$> applied)
    ∧ (∀ d, is_Some (ns !! d) → ns1 !! d = ns !! d)
    ∧ (∀ a, a ∈ acts → ns !! dest a = None → is_Some (dflt a) →
         (∀ b, b ∈ acts → dest b = dest a → b = a) → a ∈ applied).
Proof.
  revert ns. induction acts as [|a acts IH]; intros ns.
  { exists [], ns. split_and!; try done; try apply NoDup_nil_2;
      by intros ? ?%elem_of_nil. }
  simpl. unfold mbind at 1, ST_bind, get.
  destruct (dflt a) as [v|] eqn:Hv; [destruct (ns !! dest a) as [w|] eqn:Hw|].
  - (* the namespace has the attribute *)
    destruct (IH ns) as (applied & ns1 & -> & Happ & Hnd & Hkeep & Hin).
    exists applied, ns1. split_and!; try done.
    + intros b Hb. destruct (Happ b Hb) as (? & ? & ? & ?).
      split_and!; try done. by right.
    + intros a0 Ha0 Hnone Hsome Huniq.
      apply elem_of_cons in Ha0 as [->|Ha0]; [congruence|].
      apply Hin; try done. intros b Hb. apply Huniq. by right.
  - (* the default is stored *)
    unfold mbind, ST_bind, setattr.
    destruct (IH (<[dest a:=v]> ns)) as (applied & ns1 & -> & Happ & Hnd & Hkeep & Hin).
    exists (a :: applied), ns1. simpl.
    assert (ns1 !! dest a = Some v) as Ha1.
    { rewrite Hkeep; by rewrite lookup_insert_eq. }
    assert (∀ b, b ∈ applied → dest b ≠ dest a) as Hne.
    { intros b Hb Heq. destruct (Happ b Hb) as (_ & Hnone & _).
      by rewrite Heq, lookup_insert_eq in Hnone. }
    split_and!; try done.
    + intros b Hb. apply elem_of_cons in Hb as [->|Hb].
      * split_and!; [by left|done|congruence|by rewrite Hv].
      * destruct (Happ b Hb) as (? & Hnone & ? & ?).
        rewrite lookup_insert_ne in Hnone by (by apply not_eq_sym, Hne).
        split_and!; try done. by right.
    + constructor; [|done]. intros Hin'.
      apply list_elem_of_fmap in Hin' as (b & Heq & Hb). by apply (Hne b).
    + intros d [w Hd]. rewrite Hkeep.
      * rewrite lookup_insert_ne; [done|]. intros <-. congruence.
      * rewrite lookup_insert_ne; [by rewrite Hd|]. intros <-. congruence.
    + intros a0 Ha0 Hnone Hsome Huniq.
      apply elem_of_cons in Ha0 as [->|Ha0]; [by left|].
      destruct (decide (dest a = dest a0)) as [Heq|Hna].
      { assert (a = a0) as -> by (apply Huniq; [by left|done]). by left. }
      right. apply Hin; try done.
      * by rewrite lookup_insert_ne.
      * intros b Hb. apply Huniq. by right.
  - (* no default to store *)
    destruct (IH ns) as (applied & ns1 & Hrun & Happ & Hnd & Hkeep & Hin).
    assert (set_defaults acts ns = (Ok applied, ns1, [])) as -> by done.
    exists applied, ns1. split_and!; try done.
    + intros b Hb. destruct (Happ b Hb) as (? & ? & ? & ?).
      split_and!; try done. by right.
    + intros a0 Ha0 Hnone [x Hsome] Huniq.
      apply elem_of_cons in Ha0 as [->|Ha0]; [congruence|].
      apply Hin; try done. intros b Hb. apply Huniq. by right.
Qed.

(** One step of the conversion of defaults. *)
Lemma convert_defaults_cons env a acts applied seen (ns : Namespace) :
  convert_defaults env (a :: acts) applied seen ns =
  match dflt a, type_ a with
  | Some (VStr s), Some t =>
      if bool_decide (ns !! dest a = Some (VStr s)) then
        if bool_decide (a ∈ applied) && negb (bool_decide (dest a ∈ seen))
        then match convert env t s with
             | Some x => convert_defaults env acts applied seen (<[dest a := x]> ns)
             | None => (Raise (SystemExit 2), ns, [])
             end
        else (OutOfModel "parse_args: a string equal to a default", ns, [])
      else convert_defaults env acts applied seen ns
  | _, _ => convert_defaults env acts applied seen ns
  end.
Proof.
  assert (∀ ns0 : Namespace,
            (mret tt ≫= λ _ : (), convert_defaults env acts applied seen) ns0
            = convert_defaults env acts applied seen ns0) as Hskip.
  { intros ns0. unfold mbind, ST_bind, mret, ST_ret.
    by destruct (convert_defaults env acts applied seen ns0) as [[r' ns'] tr']. }
  cbn [convert_defaults]. unfold mbind at 1, ST_bind at 1, get.
  assert (∀ r : result () * Namespace * list event,
            (let '(r0, s2, t2) := r in (r0, s2, [] ++ t2)) = r) as Hnil.
  { by intros [[? ?] ?]. }
  rewrite Hnil.
  destruct (dflt a) as [[| | | |s| |]|]; rewrite ?Hskip; try done.
  destruct (type_ a) as [t|] eqn:Hty; rewrite ?Hskip; [|done].
  case_bool_decide; rewrite ?Hskip; [|done].
  destruct (bool_decide (a ∈ applied) && negb (bool_decide (dest a ∈ seen))).
  - unfold mbind, ST_bind. rewrite get_value_of. unfold value_of. rewrite Hty.
    destruct (convert env t s) as [x|]; [|done].
    unfold setattr. simpl.
    by destruct (convert_defaults env acts applied seen (<[dest a:=x]> ns))
      as [[r' ns'] tr'].
  - done.
Qed.

Lemma convert_defaults_trace env acts applied seen (ns : Namespace) :
  (convert_defaults env acts applied seen ns).2 = [].
Proof.
  revert ns. induction acts as [|a acts IH]; intros ns; [done|].
  rewrite convert_defaults_cons.
  repeat case_match; try done; apply IH.
Qed.

(** The conversion writes only the destination of an action whose default
    this parse stored, whose default is a string with a [type] to read it
    with, and which the command line left alone. *)
Lemma convert_defaults_other env acts applied seen d (ns : Namespace) :
  (∀ b, b ∈ acts → dest b = d → type_ b = None ∨ b ∉ applied ∨ d ∈ seen) →
  (convert_defaults env acts applied seen ns).1.2 !! d = ns !! d.
Proof.
  revert ns. induction acts as [|a acts IH]; intros ns Hd; [done|].
  assert (∀ ns0 : Namespace,
            (convert_defaults env acts applied seen ns0).1.2 !! d = ns0 !! d) as IH'.
  { intros ns0. apply IH. intros b Hb. apply Hd. by right. }
  rewrite convert_defaults_cons.
  destruct (dflt a) as [[| | | |s| |]|]; try apply IH'.
  destruct (type_ a) as [t|] eqn:Hty; [|apply IH'].
  case_bool_decide; [|apply IH'].
  destruct (bool_decide (a ∈ applied) && negb (bool_decide (dest a ∈ seen))) eqn:Hsure;
    [|done].
  destruct (convert env t s) as [x|]; [|done].
  rewrite IH'. apply lookup_insert_ne. intros Heq.
  apply andb_prop in Hsure as [Hin Hseen].
  apply bool_decide_eq_true in Hin. apply negb_true_iff, bool_decide_eq_false in Hseen.
  destruct (Hd a) as [?|[?|?]]; [by left|done|congruence|done|congruence].
Qed.

Lemma convert_defaults_exit env acts applied seen (ns ns' : Namespace) e tr :
  convert_defaults env acts applied seen ns = (Raise e, ns', tr) →
  e = SystemExit 2 ∧ tr = [].
Proof.
  revert ns. induction acts as [|a acts IH]; intros ns Hc; [done|].
  rewrite convert_defaults_cons in Hc.
  repeat case_match; simplify_eq; try done; by eapply IH.
Qed.

(** The value of a destination only one action writes, once the conversion
    has gone through: the default of the action, read through its [type]
    when it is a string. *)
Lemma convert_defaults_kept env acts applied seen a (ns ns' : Namespace) tr :
  (∀ b, b ∈ acts → dest b = dest a → b = a) →
  a ∈ applied → dest a ∉ seen →
  ns !! dest a = match dflt a, type_ a with
                 | Some (VStr s), Some t => convert env t s
                 | d, _ => d
                 end →
  convert_defaults env acts applied seen ns = (Ok tt, ns', tr) →
  ns' !! dest a = ns !! dest a.
Proof.
  intros Hone Hap Hseen. revert ns.
  induction acts as [|b acts IH]; intros ns Hns Hc.
  { run_in Hc. by simplify_eq. }
  assert (∀ c, c ∈ acts → dest c = dest a → c = a) as Hone'.
  { intros c Hc'. apply Hone. by right. }
  specialize (IH Hone').
  rewrite convert_defaults_cons in Hc.
  destruct (dflt b) as [[| | | |s| |]|] eqn:Hdb; try by apply IH.
  destruct (type_ b) as [t|] eqn:Hty; [|by apply IH].
  case_bool_decide as Heq; [|by apply IH].
  destruct (bool_decide (b ∈ applied) && negb (bool_decide (dest b ∈ seen)));
    [|done].
  destruct (convert env t s) as [x|] eqn:Hx; [|done].
  destruct (decide (dest b = dest a)) as [Hd|Hd].
  - assert (b = a) as -> by (apply Hone; [by left|done]).
    rewrite Hdb, Hty, Hx in Hns.
    apply IH in Hc; [|by rewrite lookup_insert_eq, Hdb, Hty, Hx].
    rewrite Hc, lookup_insert_eq. done.
  - apply IH in Hc; [|by rewrite lookup_insert_ne].
    by rewrite Hc, lookup_insert_ne.
Qed.

Lemma convert_defaults_sole env acts applied seen a (ns ns' : Namespace) tr :
  (∀ b, b ∈ acts → dest b = dest a → b = a) →
  a ∈ acts → a ∈ applied → dest a ∉ seen →
  ns !! dest a = dflt a →
  convert_defaults env acts applied seen ns = (Ok tt, ns', tr) →
  ns' !! dest a = match dflt a, type_ a with
                  | Some (VStr s), Some t => convert env t s
                  | d, _ => d
                  end.
Proof.
  intros Hone Hin Hap Hseen. revert ns Hin.
  induction acts as [|b acts IH]; intros ns Hin Hns Hc.
  { by apply elem_of_nil in Hin. }
  assert (∀ c, c ∈ acts → dest c = dest a → c = a) as Hone'.
  { intros c Hc'. apply Hone. by right. }
  specialize (IH Hone').
  destruct (decide (dest b = dest a)) as [Hd|Hd].
  - assert (b = a) as -> by (apply Hone; [by left|done]).
    rewrite convert_defaults_cons in Hc.
    pose proof (convert_defaults_kept env acts applied seen a) as Hk.
    destruct (dflt a) as [[| | | |s| |]|] eqn:Hdb;
      try (rewrite (Hk ns ns' tr Hone' Hap Hseen); by rewrite ?Hdb).
    destruct (type_ a) as [t|] eqn:Hty.
    2: { rewrite (Hk ns ns' tr Hone' Hap Hseen); by rewrite ?Hdb, ?Hty. }
    rewrite bool_decide_eq_true_2 in Hc by done.
    rewrite bool_decide_eq_true_2, bool_decide_eq_false_2 in Hc by done.
    simpl in Hc. destruct (convert env t s) as [x|] eqn:Hx; [|done].
    rewrite (Hk (<[dest a:=x]> ns) ns' tr Hone' Hap Hseen);
      by rewrite ?Hdb, ?Hty, ?Hx, ?lookup_insert_eq.
  - apply elem_of_cons in Hin as [->|Hin]; [done|].
    rewrite convert_defaults_cons in Hc.
    destruct (dflt b) as [[| | | |s| |]|] eqn:Hdb; try by apply (IH ns).
    destruct (type_ b) as [t|] eqn:Hty; [|by apply (IH ns)].
    case_bool_decide as Heq; [|by apply (IH ns)].
    destruct (bool_decide (b ∈ applied) && negb (bool_decide (dest b ∈ seen)));
      [|done].
    destruct (convert env t s) as [x|] eqn:Hx; [|done].
    apply (IH (<[dest b:=x]> ns)); [done| |done]. by rewrite lookup_insert_ne.
Qed.

Lemma filter_singleton {A} (P : A → Prop) `{!∀ x, Decision (P x)} (l : list A) a b :
  length (filter P l) = 1%nat → a ∈ l → P a → b ∈ l → P b → b = a.
Proof.
  intros Hlen Ha HPa Hb HPb.
  destruct (filter P l) as [|x [|y l']] eqn:Hf; simplify_eq/=.
  assert (a ∈ filter P l) as Ha' by (by apply list_elem_of_filter).
  assert (b ∈ filter P l) as Hb' by (by apply list_elem_of_filter).
  rewrite Hf in Ha', Hb'.
  apply list_elem_of_singleton in Ha', Hb'. congruence.
Qed.

Lemma remainder_action_kind P r :
  remainder_action P = Some r → r ∈ actions P ∧ kind r = Remainder.
Proof.
  unfold remainder_action. intros H. apply find_some in H as [Hin Hk].
  split; [by apply list_elem_of_In|]. by apply bool_decide_eq_true in Hk.
Qed.

(** A parse that succeeds, step by step. *)
Lemma parse_known_steps env P argv (ns ns' : Namespace) tr :
  parse_known env P argv ns = (Ok tt, ns', tr) →
  ∃ applied ns1 seen ns2 tr2,
    (∀ b, b ∈ applied →
       b ∈ actions P ∧ ns !! dest b = None ∧ ns1 !! dest b = dflt b
       ∧ is_Some (dflt b))
    ∧ (∀ d, is_Some (ns !! d) → ns1 !! d = ns !! d)
    ∧ (∀ a, a ∈ actions P → ns !! dest a = None → is_Some (dflt a) →
         (∀ b, b ∈ actions P → dest b = dest a → b = a) → a ∈ applied)
    ∧ has_ambiguous P argv = false
    ∧ consume env P argv [] ns1 = (Ok seen, ns2, tr2)
    ∧ convert_defaults env (actions P) applied seen ns2 = (Ok tt, ns', []).
Proof.
  intros Hparse. unfold parse_known in Hparse.
  destruct (set_defaults_spec (actions P) ns)
    as (applied & ns1 & Hdef & Happ & _ & Hkeep & Hin).
  rewrite (bind_ok _ _ _ _ _ _ Hdef) in Hparse.
  unfold mbind, ST_bind, classify in Hparse.
  destruct (has_ambiguous P argv) eqn:Hamb; [done|]. simpl in Hparse.
  destruct (consume env P argv [] ns1) as [[[seen| | |] ns2] tr2] eqn:Hscan;
    try done.
  pose proof (convert_defaults_trace env (actions P) applied seen ns2) as Htr.
  destruct (convert_defaults env (actions P) applied seen ns2)
    as [[[[]| | |] ns3] tr3] eqn:Hconv; simplify_eq/=.
  by exists applied, ns1, seen, ns2, tr2.
Qed.

(** The value parsing gives to the destination of an argument no other
    argument shares, in a namespace that does not hold it yet. *)
Lemma parse_known_fresh env P a argv (ns ns' : Namespace) tr :
  a ∈ actions P →
  (∀ b, b ∈ actions P → dest b = dest a → b = a) →
  kind a ≠ Remainder →
  ns !! dest a = None →
  is_Some (dflt a) →
  parse_known env P argv ns = (Ok tt, ns', tr) →
  ns' !! dest a =
  match given env P (dest a) argv with
  | Some F => Some F
  | None => match dflt a, type_ a with
            | Some (VStr s), Some t => convert env t s
            | d, _ => d
            end
  end.
Proof.
  intros Ha Hone Hkind Hfresh Hdflt Hparse.
  apply parse_known_steps in Hparse
    as (applied & ns1 & seen & ns2 & tr2 & Happ & _ & Hin & _ & Hscan & Hconv).
  assert (a ∈ applied) as Hap by (by apply Hin).
  destruct (Happ a Hap) as (_ & _ & Hns1 & _).
  apply (consume_spec env P (dest a)) with (n := length argv) in Hscan
    as [Hns2 Hseen]; [| |lia].
  2: { intros r [Hr Hk]%remainder_action_kind Heq.
       apply Hkind. by rewrite <- (Hone r Hr Heq). }
  destruct (given env P (dest a) argv) as [F|] eqn:HF.
  - pose proof (convert_defaults_other env (actions P) applied seen (dest a) ns2) as Ho.
    rewrite Hconv in Ho. simpl in Ho. rewrite Ho, Hns2; [done|].
    intros b _ _. right. right. apply Hseen. right. eauto.
  - apply (convert_defaults_sole env _ _ _ a) in Hconv; try done.
    + rewrite Hseen. intros [?%elem_of_nil|[? ?]]; done.
    + by rewrite Hns2.
Qed.

Lemma parse_known_held env P d argv (ns ns' : Namespace) tr :
  (∀ r, remainder_action P = Some r → dest r ≠ d) →
  parse_known env P argv ns = (Ok tt, ns', tr) →
  is_Some (ns !! d) →
  ns' !! d = match given env P d argv with
             | Some F => Some F
             | None => ns !! d
             end.
Proof.
  intros Hrem Hparse Hheld.
  apply parse_known_steps in Hparse
    as (applied & ns1 & seen & ns2 & tr2 & Happ & Hkeep & _ & _ & Hscan & Hconv).
  apply (consume_spec env P d) with (n := length argv) in Hscan
    as [Hns2 _]; [|done|lia].
  pose proof (convert_defaults_other env (actions P) applied seen d ns2) as Ho.
  rewrite Hconv in Ho. simpl in Ho. rewrite Ho, Hns2, (Hkeep d Hheld); [done|].
  intros b _ Hd. right. left. intros Hb.
  destruct (Happ b Hb) as (_ & Hnone & _).
  rewrite Hd in Hnone. rewrite Hnone in Hheld. by destruct Hheld.
Qed.




(** The same on a whole invocation: the root declares [--bitrate] with the
    default 64, [encode] declares it with the default 320 and finds 192 in
    the store; [whipper encode] ends with 64. *)
Example inherited_value_is_kept :
  let '(r, h, tr) :=
    init Sample.env Sample.whipper_with_bitrate ["encode"] "whipper" None ∅ in
  (∃ node, r = Ok node)
  ∧ EvConfigGet "int" (VStr "encode") (VStr "bitrate") (VInt 320) ∈ tr
  ∧ h !! 0%nat ≫= (.!! "bitrate") = Some (VInt 64).
Proof.
  vm_compute. split_and!; [by eexists| |reflexivity].
  apply list_elem_of_In. simpl. tauto.
Qed.

(** C1.  The code does not give the precedence of C1, which is also that
    of its own comment (lines 137-138), when the node parses into a
    namespace that already holds the destination, as the namespace a parent
    command parsed into does (line 83, lines 103-107).  An option
    registered through [add_argument_and_config] and not given on the
    command line of the node then keeps the value found in the namespace:
    neither the value the store holds for (section, dest) nor the code
    default reaches it, so the precedence fails whenever the value it
    prescribes is another one.  This is for a command line made of option
    strings as they were registered and their values, and for a held value
    that is not a string some argument with a [type] has as its default for
    the destination. *)
Theorem inherited_value_shadows_config env cs args (kwargs : Kwargs) d P0 P1 P
    argv (ns ns' : Namespace) tr sfx section D v :
  add_argument_and_config env cs args kwargs P0
    = (Ok tt, P1, [EvConfigGet sfx section (VStr d) D]) →
  actions P1 `prefix_of` actions P →
  (∀ r, remainder_action P = Some r → dest r ≠ d) →
  ns !! d = Some v →
  given env P d argv = None →
  in_fragment P argv = true →
  (∀ b s, b ∈ actions P → dest b = d → type_ b ≠ None →
     dflt b = Some (VStr s) → v ≠ VStr s) →
  parse_known env P argv ns = (Ok tt, ns', tr) →
  ns' !! d = Some v
  ∧ (through_type env (kwargs !! "type")
       match typed_get (config env) sfx section (VStr d) with
       | Some V => V
       | None => D
       end ≠ Some v →
     ¬ resolved_by_precedence env cs args kwargs d P0 P argv ns).
Proof.
  intros Hcall Hpre Hrem Hheld Hgiven _ _ Hparse.
  assert (ns' !! d = Some v) as Hkept.
  { rewrite (parse_known_held env P d argv ns ns' tr Hrem Hparse) by by eexists.
    by rewrite Hgiven. }
  split; [done|].
  intros Hne Hres.
  destruct (Hres P1 sfx section D ns' tr Hcall Hpre Hparse) as [_ Hv].
  rewrite Hgiven, Hkept in Hv. by apply Hne.
Qed.

Lemma inherited_value_shadows_config_witness :
  let P0 := SampleParsers.encode_parser0 in
  let P := SampleParsers.encode_parser in
  let ns : Namespace := {[ "bitrate" := VInt 64 ]} in
  let run := parse_known Sample.env P [] ns in
  typed_get (config Sample.env) "int" (VStr "encode") (VStr "bitrate")
    = Some (VInt 192)
  ∧ run.1.1 = Ok tt
  ∧ run.1.2 !! "bitrate" = Some (VInt 64)
  ∧ ¬ resolved_by_precedence Sample.env (Some "encode") ["--bitrate"]
        Sample.bitrate_kwargs "bitrate" P0 P [] ns.
Proof.
  intros P0 P ns run.
  destruct (inherited_value_shadows_config Sample.env (Some "encode")
              ["--bitrate"] Sample.bitrate_kwargs "bitrate" P0 P P [] ns
              run.1.2 run.2 "int" (VStr "encode") (VInt 320) (VInt 64))
    as [Hkept Hfails];
    [vm_compute; reflexivity|reflexivity|by intros r Hr|reflexivity|reflexivity
    |reflexivity|by intros b s _ _ _ _|vm_compute; reflexivity|].
  split_and!; [reflexivity|reflexivity|exact Hkept|].
  apply Hfails. vm_compute. discriminate.
Defined.

(** ** What a node does before it parses *)

Lemma call_trace env cs args (kwargs : Kwargs) P :
  Forall (λ e, is_config_get e = true) (add_argument_and_config env cs args kwargs P).2.
Proof.
  destruct (call_cases env cs args kwargs P) as [(-> & _)|(sfx & key & _ & _ & -> & _)].
  - constructor.
  - by repeat constructor.
Qed.

Lemma run_add_arguments_trace env cs calls P :
  Forall (λ e, is_config_get e = true) (run_add_arguments env cs calls P).2.
Proof.
  revert P. induction calls as [|call calls IH]; intros P; [constructor|].
  simpl. unfold mbind, ST_bind.
  assert (∃ step : ST Parser unit,
            step = match call with
                   | AddArgumentAndConfig args kwargs =>
                       add_argument_and_config env cs args kwargs
                   | AddArgument args kwargs => add_argument args kwargs
                   end
            ∧ Forall (λ e, is_config_get e = true) (step P).2) as (step & <- & Hstep).
  { eexists. split; [reflexivity|]. destruct call as [args kwargs|args kwargs].
    - apply call_trace.
    - destruct (add_argument args kwargs P) as [[r P'] tr] eqn:Ha.
      apply add_argument_trace in Ha as [-> _]. constructor. }
  destruct (step P) as [[[[]| | |] P1] tr1]; try done.
  specialize (IH P1). destruct (run_add_arguments env cs calls P1) as [[r P2] tr2].
  simpl in *. by apply Forall_app.
Qed.

Lemma run_add_arguments_app env cs pre post P P1 tr1 :
  run_add_arguments env cs pre P = (Ok tt, P1, tr1) →
  run_add_arguments env cs (pre ++ post) P
  = let '(r, P2, tr2) := run_add_arguments env cs post P1 in (r, P2, tr1 ++ tr2).
Proof.
  revert P tr1. induction pre as [|call pre IH]; intros P tr1 Hpre.
  { run_in Hpre. simplify_eq. simpl.
    by destruct (run_add_arguments env cs post P1) as [[r P2] tr2]. }
  simpl in Hpre |- *. unfold mbind, ST_bind in Hpre |- *.
  match goal with
  | |- context [match ?step P with _ => _ end] =>
      destruct (step P) as [[[[]| | |] P'] tr'] eqn:Hstep; try done
  end.
  destruct (run_add_arguments env cs pre P') as [[r0 P0] tr0] eqn:Hrun.
  simplify_eq. rewrite (IH _ _ Hrun).
  destruct (run_add_arguments env cs post P1) as [[r P2] tr2].
  by rewrite app_assoc.
Qed.

Lemma register_arguments_trace env c P :
  Forall (λ e, is_config_get e = true) (register_arguments env c P).2.
Proof.
  unfold register_arguments, mbind, ST_bind.
  pose proof (run_add_arguments_trace env (config_section c) (add_arguments c) P) as H.
  destruct (run_add_arguments env _ _ P) as [[[[]| | |] P1] tr1]; try done.
  destruct (subcommands c); simpl in H |- *.
  - destruct (add_argument _ _ P1) as [[r P2] tr2] eqn:Ha.
    apply add_argument_trace in Ha as [-> _]. simpl. by rewrite app_nil_r.
  - unfold mret, ST_ret. simpl. by rewrite app_nil_r.
Qed.

Lemma config_get_not_parse tr :
  Forall (λ e, is_config_get e = true) tr →
  ∀ e, e ∈ tr → is_parse e = false ∧ is_init e = false.
Proof.
  intros H e He. rewrite Forall_forall in H. specialize (H e He).
  by destruct e.
Qed.

(** A failure while the parser is built ends [__init__] there: the heap is
    as it was and nothing has been parsed. *)
Lemma init_build_fails env c argv name opts h r P' tr :
  build_parser env c (init_parser c name) = (r, P', tr) →
  (∀ u, r ≠ Ok u) →
  ∃ r', init env c argv name opts h = (r', h, EvInit name argv opts :: tr)
        ∧ match r, r' with
          | Raise e, Raise e' => e = e'
          | IllFormed n, IllFormed n' => n = n'
          | OutOfModel w, OutOfModel w' => w = w'
          | _, _ => False
          end.
Proof.
  intros Hb Hr. rewrite init_unfold.
  unfold prologue, mbind, ST_bind, emit, on_local. rewrite Hb.
  destruct r; [by destruct (Hr a)|..]; eexists; (split; [reflexivity|done]).
Qed.

(** C3.  A call of [add_argument_and_config] without [dest] raises the
    registration error at once: the parser is left as it was (the option is
    not registered) and the store is not consulted.  In a node whose
    [add_arguments] makes such a call, [__init__] ends with that error
    before [parse_args] is called, and the heap, with the shared namespace
    in it, is as it was. *)
Theorem missing_dest_fails_before_parsing env cs args (kwargs : Kwargs) :
  kwargs !! "dest" = None →
  (∀ P, add_argument_and_config env cs args kwargs P
        = (Raise (SyntaxError "parser requires a 'dest' argument"), P, []))
  ∧ ∀ c pre post argv name opts h P1 tr1,
      config_section c = cs →
      add_arguments c = pre ++ AddArgumentAndConfig args kwargs :: post →
      run_add_arguments env cs pre (init_parser c name) = (Ok tt, P1, tr1) →
      init env c argv name opts h
      = (Raise (SyntaxError "parser requires a 'dest' argument"), h,
         EvInit name argv opts :: tr1)
      ∧ ∀ e, e ∈ EvInit name argv opts :: tr1 → is_parse e = false.
Proof.
  intros Hd. split; [intros P; by apply missing_dest_call|].
  intros c pre post argv name opts h P1 tr1 Hcs Hcalls Hpre.
  assert (build_parser env c (init_parser c name)
          = (Raise (SyntaxError "parser requires a 'dest' argument"), P1, tr1)) as Hb.
  { unfold build_parser, register_arguments. rewrite Hcs, Hcalls.
    unfold mbind at 1 2, ST_bind.
    rewrite (run_add_arguments_app _ _ _ _ _ _ _ Hpre). simpl.
    unfold mbind, ST_bind. rewrite missing_dest_call by done.
    by rewrite app_nil_r. }
  destruct (init_build_fails env c argv name opts h _ _ _ Hb) as (r' & -> & Hr');
    [done|].
  destruct r'; try done. subst e. split; [done|].
  intros e [->|He]%elem_of_cons; [done|].
  pose proof (run_add_arguments_trace env cs pre (init_parser c name)) as Htr.
  rewrite Hpre in Htr. by apply (config_get_not_parse tr1).
Qed.

Lemma missing_dest_fails_before_parsing_witness :
  Sample.no_dest_kwargs !! "dest" = None
  ∧ init Sample.env Sample.careless ["--bitrate"; "128"] "whipper" None ∅
    = (Raise (SyntaxError "parser requires a 'dest' argument"), ∅,
       [EvInit "whipper" ["--bitrate"; "128"] None]).
Proof.
  assert (Sample.no_dest_kwargs !! "dest" = None) as Hd by reflexivity.
  split; [exact Hd|].
  destruct (missing_dest_fails_before_parsing Sample.env None ["--bitrate"]
              Sample.no_dest_kwargs Hd) as [_ H].
  destruct (H Sample.careless [] [] ["--bitrate"; "128"] "whipper" None ∅
              (init_parser Sample.careless "whipper") [])
    as [Hinit _]; [reflexivity..|].
  exact Hinit.
Defined.

(** C4, at the failing input.  With [type=bool] control reaches line 172,
    which is not a statement of the language: no look-up is made, so no
    suffix, ["boolean"] or other, reaches the store, and nothing is
    registered. *)
Theorem boolean_suffix_not_passed env cs args P :
  add_argument_and_config env cs args
    {[ "dest" := VStr "eject"; "type" := VType Tbool ]} P
  = (IllFormed 172, P, []).
Proof.
  rewrite (call_unfold _ _ _ _ (VStr "eject")) by done.
  unfold mbind, ST_bind. rewrite typesuffix_of_cases.
  rewrite forwarded_lookup by done.
  by simplify_map_eq.
Qed.



(** C5 as stated fails: the abort for no drive has no status that is
    distinct.  The construction that finds no drive and the one that finds
    a drive whose path does not exist end in two different failures with
    one and the same status. *)
Lemma no_drive_status_not_distinct :
  let no_drive := init Sample.env_no_drive Sample.rip ["encode"] "whipper" None ∅ in
  let unplugged := init Sample.env_unplugged Sample.rip ["encode"] "whipper" None ∅ in
  ∃ e1 e2,
    no_drive.1.1 = Raise e1 ∧ unplugged.1.1 = Raise e2
    ∧ e1 ≠ e2 ∧ status_of e1 = status_of e2.
Proof.
  intros no_drive unplugged.
  exists (IOError "No CD-DA drives found!"),
         (IOError "CD-DA device /dev/sr0 not found!").
  split_and!; [vm_compute; reflexivity..|discriminate|reflexivity].
Qed.

(** ** The prologue of [__init__] *)

Lemma call_prog env cs args (kwargs : Kwargs) P u P' tr :
  add_argument_and_config env cs args kwargs P = (Ok u, P', tr) →
  prog P' = prog P.
Proof.
  intros Hc.
  destruct (call_cases env cs args kwargs P) as [(_ & _ & Hno)|(sfx & key & _ & _ & _ & Hres)].
  { rewrite Hc in Hno. by destruct (Hno u). }
  rewrite Hc in Hres. simpl in Hres.
  destruct (add_argument args _ P) as [[r P0] tr0] eqn:Ha. simplify_eq/=.
  by apply add_argument_ok in Ha as (a & -> & _).
Qed.

Lemma run_add_arguments_prog env cs calls P u P' tr :
  run_add_arguments env cs calls P = (Ok u, P', tr) → prog P' = prog P.
Proof.
  revert P tr. induction calls as [|call calls IH]; intros P tr Hrun.
  { run_in Hrun. by simplify_eq. }
  simpl in Hrun. unfold mbind, ST_bind in Hrun.
  match type of Hrun with
  | context [match ?step P with _ => _ end] =>
      destruct (step P) as [[[[]| | |] P1] tr1] eqn:Hstep; try done
  end.
  destruct (run_add_arguments env cs calls P1) as [[r P2] tr2] eqn:Hrec.
  simplify_eq. rewrite (IH _ _ Hrec).
  destruct call as [args kwargs|args kwargs].
  - by apply call_prog in Hstep.
  - by apply add_argument_ok in Hstep as (a & -> & _).
Qed.

Lemma build_parser_ok env c P0 u P tr :
  build_parser env c P0 = (Ok u, P, tr) →
  prog P = prog P0 ∧ Forall (λ e, is_config_get e = true) tr.
Proof.
  unfold build_parser, mbind, ST_bind. intros Hb.
  pose proof (register_arguments_trace env c P0) as Htr.
  destruct (register_arguments env c P0) as [[[[]| | |] P1] tr1] eqn:Hreg; try done.
  assert (prog P1 = prog P0) as Hp1.
  { unfold register_arguments, mbind, ST_bind in Hreg.
    destruct (run_add_arguments env _ _ P0) as [[[[]| | |] Pa] tra] eqn:Hrun; try done.
    apply run_add_arguments_prog in Hrun. rewrite <- Hrun.
    destruct (subcommands c).
    - destruct (add_argument _ _ Pa) as [[[[]| | |] Pb] trb] eqn:Ha; simplify_eq.
      by apply add_argument_ok in Ha as (a & -> & _).
    - run_in Hreg. by simplify_eq. }
  destruct (device_option c).
  - unfold add_device_option in Hb. destruct (drives env) as [|first rest].
    { by run_in Hb. }
    destruct (add_argument _ _ P1) as [[[[]| | |] P2] tr2] eqn:Ha; simplify_eq.
    apply add_argument_ok in Ha as (a & -> & -> & _).
    split; [done|]. by rewrite app_nil_r.
  - run_in Hb. simplify_eq. split; [done|]. by rewrite app_nil_r.
Qed.

Lemma quiet_app tr1 tr2 : quiet tr1 → quiet tr2 → quiet (tr1 ++ tr2).
Proof. apply Forall_app_2. Qed.

Lemma quiet_filter tr : quiet tr → filter (λ e, is_init e = true) tr = [].
Proof.
  induction 1 as [|e tr He _ IH]; [done|].
  rewrite filter_cons. rewrite He. by rewrite decide_False.
Qed.

Lemma config_get_quiet tr : Forall (λ e, is_config_get e = true) tr → quiet tr.
Proof. intros H. eapply Forall_impl; [exact H|]. by intros []. Qed.

(** How a scan can end: with the help printed and status 0, or without any
    event, and then if by an exit, with status 2. *)
Lemma consume_outcome env P n :
  ∀ argv seen (ns : Namespace) r ns' tr,
    (length argv ≤ n)%nat →
    consume env P argv seen ns = (r, ns', tr) →
    (r = Raise (SystemExit 0) ∧ tr = [EvPrintHelp (prog P)])
    ∨ (tr = [] ∧ ∀ e, r = Raise e → e = SystemExit 2).
Proof.
  induction n as [|n IH]; intros argv seen ns r ns' tr Hlen Hc.
  - destruct argv; [|simpl in Hlen; lia]. simpl in Hc.
    destruct (remainder_action P); run_in Hc; simplify_eq; by right.
  - destruct argv as [|t rest].
    { apply (IH [] seen ns r ns' tr); [simpl; lia|done]. }
    simpl in Hc. destruct (is_argument t).
    { case_bool_decide; [run_in Hc; simplify_eq; by right|].
      destruct (remainder_action P); [run_in Hc; simplify_eq; by right|].
      unfold mbind, ST_bind in Hc.
      destruct (consume env P rest seen ns) as [[[seen1| | |] ns1] tr1] eqn:Hrec;
        apply IH in Hrec as [[? ?]|[? He]]; try (simpl in Hlen; lia);
        run_in Hc; simplify_eq; try (by left); right; (split; [done|]);
        intros ? ?; simplify_eq; eauto. }
    destruct (find_flag P t) as [a|].
    2: { case_bool_decide; [|run_in Hc; simplify_eq; by right].
         destruct (remainder_action P); run_in Hc; simplify_eq; right;
           (split; [done|]); intros ? ?; by simplify_eq. }
    case_bool_decide; [run_in Hc; simplify_eq; by right|].
    destruct (kind a).
    + destruct rest as [|v rest'].
      { run_in Hc. simplify_eq. right. split; [done|]. intros ? ?. by simplify_eq. }
      destruct (is_argument v).
      2: { case_bool_decide; run_in Hc; simplify_eq; right; (split; [done|]);
             intros ? ?; by simplify_eq. }
      case_bool_decide; [run_in Hc; simplify_eq; by right|].
      unfold mbind at 1, ST_bind in Hc. rewrite get_value_of in Hc.
      destruct (value_of env a v) as [x|].
      2: { simplify_eq. right. split; [done|]. intros ? ?. by simplify_eq. }
      unfold mbind at 1, ST_bind, setattr in Hc.
      destruct (consume env P rest' (dest a :: seen) (<[dest a:=x]> ns))
        as [[r1 ns1] tr1] eqn:Hrec.
      apply IH in Hrec; [|simpl in Hlen; lia].
      destruct r1; simplify_eq/=; done.
    + unfold mbind at 1, ST_bind, setattr in Hc.
      destruct (consume env P rest (dest a :: seen) (<[dest a:=v]> ns))
        as [[r1 ns1] tr1] eqn:Hrec.
      apply IH in Hrec; [|simpl in Hlen; lia].
      destruct r1; simplify_eq/=; done.
    + run_in Hc. simplify_eq. by left.
    + run_in Hc. simplify_eq. by right.
Qed.

(** On a command line of the fragment the scan comes to nothing the model
    leaves out. *)
Lemma consume_in_fragment env P n :
  ∀ argv seen (ns : Namespace) r ns' tr,
    (length argv ≤ n)%nat →
    in_fragment P argv = true →
    consume env P argv seen ns = (r, ns', tr) →
    ∀ why, r ≠ OutOfModel why.
Proof.
  induction n as [|n IH]; intros argv seen ns r ns' tr Hlen Hfr Hc why.
  - destruct argv; [|simpl in Hlen; lia]. simpl in Hc.
    destruct (remainder_action P); run_in Hc; by simplify_eq.
  - destruct argv as [|t rest].
    { apply (IH [] seen ns r ns' tr); [simpl; lia|done|done]. }
    simpl in Hc, Hfr. destruct (is_argument t).
    { apply andb_true_iff in Hfr as [Hreg Hfr].
      apply negb_true_iff, bool_decide_eq_false in Hreg.
      rewrite bool_decide_eq_false_2 in Hc by done.
      destruct (remainder_action P); [run_in Hc; by simplify_eq|].
      unfold mbind, ST_bind in Hc.
      destruct (consume env P rest seen ns) as [[r1 ns1] tr1] eqn:Hrec.
      apply (IH _ _ _ _ _ _) with (why := why) in Hrec;
        [|simpl in Hlen; lia|done].
      destruct r1; run_in Hc; by simplify_eq. }
    destruct (find_flag P t) as [a|].
    2: { rewrite Hfr in Hc.
         destruct (remainder_action P); run_in Hc; by simplify_eq. }
    apply andb_true_iff in Hfr as [Hsep Hfr].
    apply negb_true_iff in Hsep. rewrite Hsep in Hc.
    destruct (kind a); [| | |done].
    + destruct rest as [|v rest']; [run_in Hc; by simplify_eq|].
      destruct (is_argument v).
      2: { rewrite Hfr in Hc. run_in Hc. by simplify_eq. }
      apply andb_true_iff in Hfr as [Hreg Hfr].
      apply negb_true_iff in Hreg. rewrite Hreg in Hc.
      unfold mbind at 1, ST_bind in Hc. rewrite get_value_of in Hc.
      destruct (value_of env a v) as [x|]; [|by simplify_eq].
      unfold mbind at 1, ST_bind, setattr in Hc.
      destruct (consume env P rest' (dest a :: seen) (<[dest a:=x]> ns))
        as [[r1 ns1] tr1] eqn:Hrec.
      apply (IH _ _ _ _ _ _) with (why := why) in Hrec;
        [|simpl in Hlen; lia|done].
      destruct r1; simplify_eq/=; done.
    + unfold mbind at 1, ST_bind, setattr in Hc.
      destruct (consume env P rest (dest a :: seen) (<[dest a:=v]> ns))
        as [[r1 ns1] tr1] eqn:Hrec.
      apply (IH _ _ _ _ _ _) with (why := why) in Hrec;
        [|simpl in Hlen; lia|done].
      destruct r1; simplify_eq/=; done.
    + run_in Hc. by simplify_eq.
Qed.

Lemma consume_quiet env P n :
  ∀ argv seen (ns : Namespace),
    (length argv ≤ n)%nat → quiet (consume env P argv seen ns).2.
Proof.
  intros argv seen ns Hlen.
  destruct (consume env P argv seen ns) as [[r ns'] tr] eqn:Hc.
  destruct (consume_outcome env P n _ _ _ _ _ _ Hlen Hc) as [[_ ->]|[-> _]];
    by repeat constructor.
Qed.

Lemma convert_defaults_quiet env acts applied seen (ns : Namespace) :
  quiet (convert_defaults env acts applied seen ns).2.
Proof. rewrite convert_defaults_trace. constructor. Qed.

Lemma parse_known_quiet env P argv (ns : Namespace) :
  quiet (parse_known env P argv ns).2.
Proof.
  unfold parse_known.
  destruct (set_defaults_spec (actions P) ns) as (applied & ns1 & Hdef & _).
  rewrite (bind_ok _ _ _ _ _ _ Hdef). unfold mbind, ST_bind, classify.
  destruct (has_ambiguous P argv); [constructor|]. simpl.
  pose proof (consume_quiet env P (length argv) argv [] ns1 (le_n _)) as Hscan.
  destruct (consume env P argv [] ns1) as [[[seen| | |] ns2] tr2]; try done.
  pose proof (convert_defaults_quiet env (actions P) applied seen ns2) as Hconv.
  destruct (convert_defaults env (actions P) applied seen ns2) as [[r ns3] tr3].
  simpl in *. by apply quiet_app.
Qed.

(** A parse ends in one of two ways other than well: it prints the help
    and exits with status 0, or it exits with status 2 and prints nothing. *)
Lemma parse_known_outcome env P argv (ns ns' : Namespace) r tr :
  parse_known env P argv ns = (r, ns', tr) →
  (r = Raise (SystemExit 0) ∧ tr = [EvPrintHelp (prog P)])
  ∨ (tr = [] ∧ ∀ e, r = Raise e → e = SystemExit 2).
Proof.
  unfold parse_known.
  destruct (set_defaults_spec (actions P) ns) as (applied & ns1 & Hdef & _).
  rewrite (bind_ok _ _ _ _ _ _ Hdef). unfold mbind, ST_bind, classify.
  destruct (has_ambiguous P argv).
  { unfold parser_error, sys_exit, raise. simpl. intros ?. simplify_eq.
    right. split; [done|]. by intros e [= <-]. }
  simpl.
  destruct (consume env P argv [] ns1) as [[rc ns2] tr2] eqn:Hc.
  pose proof (consume_outcome env P (length argv) _ _ _ _ _ _ (le_n _) Hc)
    as Hscan.
  destruct rc as [seen| | |].
  - destruct Hscan as [[? _]|[-> _]]; [done|].
    destruct (convert_defaults env (actions P) applied seen ns2)
      as [[r3 ns3] tr3] eqn:Hconv.
    pose proof (convert_defaults_trace env (actions P) applied seen ns2) as Htr.
    rewrite Hconv in Htr. simpl in Htr. subst tr3. simpl.
    intros ?. simplify_eq. right. split; [done|].
    intros e ->. by destruct (convert_defaults_exit _ _ _ _ _ _ _ _ Hconv).
  - intros ?. simplify_eq. destruct Hscan as [[? ->]|[-> He]].
    + left. by simplify_eq.
    + right. split; [done|]. intros e' [= <-]. by apply He.
  - intros ?. simplify_eq. destruct Hscan as [[? ->]|[-> He]]; [done|].
    right. split; [done|]. by intros e' ?.
  - intros ?. simplify_eq. destruct Hscan as [[? ->]|[-> He]]; [done|].
    right. split; [done|]. by intros e' ?.
Qed.

Lemma at_loc_quiet {A} l (m : ST Namespace A) (h : Heap) :
  (∀ ns, quiet (m ns).2) → quiet (at_loc l m h).2.
Proof.
  intros Hm. unfold at_loc. destruct (h !! l) as [ns|]; [|constructor].
  specialize (Hm ns). by destruct (m ns) as [[r ns'] tr].
Qed.

Lemma parse_args_spec env P argv opts (h : Heap) :
  quiet (parse_args env P argv opts h).2
  ∧ ∀ l l0, (parse_args env P argv opts h).1.1 = Ok l → opts = Some l0 → l = l0.
Proof.
  unfold parse_args.
  assert (∃ l h0, (match opts with
                   | Some l => mret l
                   | None => new_namespace
                   end : ST Heap loc) h = (Ok l, h0, [])
                   ∧ ∀ l0, opts = Some l0 → l = l0) as (l & h0 & Hl & Hsame).
  { destruct opts as [l0|]; eexists _, _; (split; [reflexivity|]); congruence. }
  rewrite (bind_ok _ _ _ _ _ _ Hl). unfold mbind, ST_bind, emit.
  pose proof (at_loc_quiet l (parse_known env P argv) h0
                (parse_known_quiet env P argv)) as Hq.
  destruct (at_loc l (parse_known env P argv) h0) as [[[[]| | |] h1] tr1];
    simpl in *; rewrite ?app_nil_r;
    (split; [by apply Forall_cons|]); intros; simplify_eq; eauto.
Qed.

Lemma check_device_quiet env (ns : Namespace) : quiet (check_device env ns).2.
Proof.
  unfold check_device, mbind, ST_bind, get.
  destruct (ns !! "device") as [[]|]; try constructor.
  unfold setattr. destruct (path_exists env _); by repeat constructor.
Qed.

(** The prologue, when it succeeds: the parser carries the program name,
    the namespace is the one that was passed when one was passed, and the
    only constructor entered so far is this one. *)
Lemma prologue_ok env c argv name opts h P l h1 tr1 :
  prologue env c argv name opts h = (Ok (P, l), h1, tr1) →
  prog P = name
  ∧ (∀ l0, opts = Some l0 → l = l0)
  ∧ ∃ tr', tr1 = EvInit name argv opts :: tr' ∧ quiet tr'.
Proof.
  unfold prologue. unfold mbind at 1, ST_bind, emit. unfold mbind at 1, ST_bind, on_local.
  destruct (build_parser env c (init_parser c name)) as [[[[]| | |] P1] trB] eqn:Hb;
    try done.
  apply build_parser_ok in Hb as [Hprog HtrB].
  unfold mbind at 1, ST_bind.
  destruct (parse_args_spec env P1 argv opts h) as [Hq Hsame].
  destruct (parse_args env P1 argv opts h) as [[[l1| | |] h2] trP]; try done.
  unfold mbind, ST_bind.
  assert (∃ dev : ST Heap unit,
            dev = (if device_option c then at_loc l1 (check_device env) else mret tt)
            ∧ quiet (dev h2).2) as (dev & Hdev & Hqd).
  { eexists. split; [reflexivity|]. destruct (device_option c); [|constructor].
    apply at_loc_quiet, check_device_quiet. }
  rewrite <- Hdev.
  destruct (dev h2) as [[[[]| | |] h3] trD]; try done.
  intros ?. simplify_eq/=. split_and!; [done|eauto|].
  eexists. split; [reflexivity|].
  repeat apply quiet_app; try done; try constructor.
  by apply config_get_quiet.
Qed.

(** ** Dispatch *)

Lemma bind_trace {S A B} (m : ST S A) (k : A → ST S B) s :
  ∃ t, ((m ≫= k) s).2 = (m s).2 ++ t.
Proof.
  unfold mbind, ST_bind. destruct (m s) as [[[a| | |] s1] t1]; simpl;
    try (exists []; by rewrite app_nil_r).
  destruct (k a s1) as [[r s2] t2]. by exists t2.
Qed.

(** Entering a constructor is the first thing it does. *)
Lemma init_enters env c argv name opts h :
  ∃ tr, (init env c argv name opts h).2 = EvInit name argv opts :: tr.
Proof.
  rewrite init_unfold.
  destruct (bind_trace (prologue env c argv name opts)
              (λ '(parser, options),
                 match subcommands c with
                 | None => mret (MkNode opts name parser options None)
                 | Some table =>
                     remainder ← at_loc options read_remainder;
                     match remainder with
                     | [] => _ ← emit (EvPrintHelp (prog parser)); sys_exit 0
                     | first :: tail =>
                         match subcommand table first with
                         | None =>
                             _ ← logger_critical ("incorrect subcommand: " +:+ first);
                             sys_exit 1
                         | Some child_class =>
                             child ← init env child_class tail
                                        (name +:+ " " +:+ first) (Some options);
                             mret (MkNode opts name parser options (Some child))
                         end
                     end
                 end) h) as [t ->].
  unfold prologue.
  destruct (bind_trace (emit (EvInit name argv opts))
              (λ _ : (),
                 '(_, parser) ← on_local (build_parser env c) (init_parser c name);
                 options ← parse_args env parser argv opts;
                 _ ← (if device_option c then at_loc options (check_device env)
                      else mret tt);
                 mret (parser, options)) h) as [t' ->].
  simpl. eauto.
Qed.

Lemma read_remainder_at l (h : Heap) (ns : Namespace) rem :
  h !! l = Some ns → ns !! "remainder" = Some (VList rem) →
  at_loc l read_remainder h = (Ok rem, h, []).
Proof.
  intros Hl Hr. unfold at_loc, read_remainder, mbind, ST_bind, get.
  rewrite Hl, Hr. simpl. by rewrite insert_id.
Qed.

Lemma subcommand_None table first :
  subcommand table first = None ↔ first ∉ table.*1.
Proof.
  induction table as [|[key child] table IH]; simpl.
  - split; [intros _ ?%elem_of_nil|]; done.
  - case_bool_decide as Hk.
    + subst. split; [done|]. intros Hn. destruct Hn. by left.
    + rewrite IH, not_elem_of_cons. naive_solver.
Qed.

(** C6.  A node that has subcommands and finds the remainder empty after
    parsing prints its help and exits with status 0; the only constructor
    entered is its own, so no child was constructed. *)
Theorem empty_remainder_prints_help env c argv name opts h table P l h1 tr1
    (ns : Namespace) :
  subcommands c = Some table →
  prologue env c argv name opts h = (Ok (P, l), h1, tr1) →
  h1 !! l = Some ns →
  ns !! "remainder" = Some (VList []) →
  init env c argv name opts h
  = (Raise (SystemExit 0), h1, tr1 ++ [EvPrintHelp name])
  ∧ filter (λ e, is_init e = true) (tr1 ++ [EvPrintHelp name])
    = [EvInit name argv opts].
Proof.
  intros Hsub Hpro Hl Hrem.
  destruct (prologue_ok _ _ _ _ _ _ _ _ _ _ Hpro) as (Hprog & _ & tr' & -> & Hq).
  split.
  - rewrite init_unfold, (bind_ok _ _ _ _ _ _ Hpro), Hsub.
    rewrite (bind_ok _ _ _ _ _ _ (read_remainder_at _ _ _ _ Hl Hrem)).
    by rewrite Hprog.
  - simpl. rewrite filter_cons, decide_True by done.
    rewrite (quiet_filter (tr' ++ [EvPrintHelp name])); [done|].
    apply quiet_app; [done|by repeat constructor].
Qed.

Lemma empty_remainder_prints_help_witness :
  init Sample.env Sample.whipper [] "whipper" None ∅
  = (Raise (SystemExit 0), {[ 0%nat := {[ "remainder" := VList [] ]} ]},
     [EvInit "whipper" [] None; EvParse "whipper" [] 0%nat; EvPrintHelp "whipper"]).
Proof.
  pose (pro := prologue Sample.env Sample.whipper [] "whipper" None ∅).
  destruct (empty_remainder_prints_help Sample.env Sample.whipper [] "whipper"
              None ∅ [("encode", Sample.encode)]
              SampleParsers.whipper_parser 0%nat pro.1.2 pro.2 {[ "remainder" := VList [] ]})
    as [H _]; [reflexivity|vm_compute; reflexivity|vm_compute; reflexivity
              |reflexivity|].
  rewrite H. vm_compute. reflexivity.
Defined.

(** C7.  A node that has subcommands and finds the remainder non-empty
    after parsing looks its first token up in the table.  When it is not a
    key, the node logs a critical error and exits with status 1, which is
    not the status of success, and no child constructor is entered.
    Otherwise the class found is instantiated with the tail of the
    remainder, the program name followed by a space and the token, and the
    namespace object the node parsed into, which is the one the node was
    given when it was given one; the child becomes [cmd]. *)
Theorem dispatch_on_first_token env c argv name opts h table P l h1 tr1
    (ns : Namespace) first tail :
  subcommands c = Some table →
  prologue env c argv name opts h = (Ok (P, l), h1, tr1) →
  h1 !! l = Some ns →
  ns !! "remainder" = Some (VList (first :: tail)) →
  (first ∉ table.*1 →
     let trace := tr1 ++ [EvLog CRITICAL ("incorrect subcommand: " +:+ first)] in
     init env c argv name opts h = (Raise (SystemExit 1), h1, trace)
     ∧ filter (λ e, is_init e = true) trace = [EvInit name argv opts]
     ∧ status_of (SystemExit 1) ≠ status_of (SystemExit 0))
  ∧ (first ∈ table.*1 →
     ∃ child_class r h2 tr2,
       subcommand table first = Some child_class
       ∧ init env child_class tail (name +:+ " " +:+ first) (Some l) h1
         = (r, h2, EvInit (name +:+ " " +:+ first) tail (Some l) :: tr2)
       ∧ init env c argv name opts h
         = (match r with
            | Ok child => Ok (MkNode opts name P l (Some child))
            | Raise e => Raise e
            | IllFormed n => IllFormed n
            | OutOfModel w => OutOfModel w
            end, h2,
            tr1 ++ EvInit (name +:+ " " +:+ first) tail (Some l) :: tr2)
       ∧ ∀ l0, opts = Some l0 → l = l0).
Proof.
  intros Hsub Hpro Hl Hrem.
  destruct (prologue_ok _ _ _ _ _ _ _ _ _ _ Hpro) as (Hprog & Hsame & tr' & -> & Hq).
  assert (∀ k : list string → ST Heap Node,
            (remainder ← at_loc l read_remainder; k remainder) h1
            = let '(r, h2, t2) := k (first :: tail) h1 in (r, h2, t2)) as Hread.
  { intros k. rewrite (bind_ok _ _ _ _ _ _ (read_remainder_at _ _ _ _ Hl Hrem)).
    by destruct (k (first :: tail) h1) as [[r h2] t2]. }
  split.
  - intros Hnot%subcommand_None trace. split_and!; [|subst trace|done].
    + rewrite init_unfold, (bind_ok _ _ _ _ _ _ Hpro), Hsub, Hread, Hnot. done.
    + simpl. rewrite filter_cons, decide_True by done.
      rewrite (quiet_filter (tr' ++ _)); [done|].
      apply quiet_app; [done|by repeat constructor].
  - intros Hin.
    destruct (subcommand table first) as [child_class|] eqn:Hfound.
    2: { by apply subcommand_None in Hfound. }
    destruct (init_enters env child_class tail (name +:+ " " +:+ first) (Some l) h1)
      as [tr2 Htr2].
    destruct (init env child_class tail (name +:+ " " +:+ first) (Some l) h1)
      as [[r h2] t2] eqn:Hchild.
    simpl in Htr2. subst t2.
    exists child_class, r, h2, tr2. split_and!; [done|done| |done].
    rewrite init_unfold, (bind_ok _ _ _ _ _ _ Hpro), Hsub, Hread, Hfound.
    unfold mbind, ST_bind. rewrite Hchild.
    destruct r; simpl; by rewrite ?app_nil_r.
Qed.

Lemma dispatch_on_first_token_witness :
  init Sample.env Sample.whipper ["bogus"] "whipper" None ∅
  = (Raise (SystemExit 1), {[ 0%nat := {[ "remainder" := VList ["bogus"] ]} ]},
     [EvInit "whipper" ["bogus"] None; EvParse "whipper" ["bogus"] 0%nat;
      EvLog CRITICAL "incorrect subcommand: bogus"])
  ∧ ∃ child tr,
      (init Sample.env Sample.whipper ["encode"; "--bitrate"; "128"] "whipper" None ∅).1.1
      = Ok (MkNode None "whipper" SampleParsers.whipper_parser 0%nat (Some child))
      ∧ (init Sample.env Sample.whipper ["encode"; "--bitrate"; "128"] "whipper" None ∅).2
        = [EvInit "whipper" ["encode"; "--bitrate"; "128"] None;
           EvParse "whipper" ["encode"; "--bitrate"; "128"] 0%nat;
           EvInit "whipper encode" ["--bitrate"; "128"] (Some 0%nat)] ++ tr
      ∧ prog_name child = "whipper encode"
      ∧ options child = 0%nat.
Proof.
  split.
  - pose (pro := prologue Sample.env Sample.whipper ["bogus"] "whipper" None ∅).
    destruct (dispatch_on_first_token Sample.env Sample.whipper ["bogus"] "whipper"
                None ∅ [("encode", Sample.encode)] SampleParsers.whipper_parser
                0%nat pro.1.2 pro.2 {[ "remainder" := VList ["bogus"] ]} "bogus" [])
      as [Hno _]; [reflexivity|vm_compute; reflexivity|vm_compute; reflexivity
                  |reflexivity|].
    destruct Hno as [H _].
    { intros Hin. apply list_elem_of_In in Hin. simpl in Hin.
      destruct Hin as [Hin|[]]. discriminate Hin. }
    rewrite H. vm_compute. reflexivity.
  - pose (argv := ["encode"; "--bitrate"; "128"]).
    pose (pro := prologue Sample.env Sample.whipper argv "whipper" None ∅).
    destruct (dispatch_on_first_token Sample.env Sample.whipper argv "whipper"
                None ∅ [("encode", Sample.encode)] SampleParsers.whipper_parser
                0%nat pro.1.2 pro.2 {[ "remainder" := VList argv ]}
                "encode" ["--bitrate"; "128"])
      as [_ Hyes]; [reflexivity|vm_compute; reflexivity|vm_compute; reflexivity
                   |reflexivity|].
    destruct Hyes as (child_class & r & h2 & tr2 & Hfound & Hchild & Hinit & _).
    { simpl. left. }
    vm_compute in Hfound. injection Hfound as <-.
    fold argv. rewrite Hinit.
    vm_compute in Hchild. injection Hchild as <- <- <-.
    eexists _, _. split_and!; [reflexivity|vm_compute; reflexivity|reflexivity..].
Defined.

(** ** The device *)

Lemma device_missing_msg_differs device : device_missing_msg device ≠ no_drives_msg.
Proof. unfold device_missing_msg, no_drives_msg. simpl. discriminate. Qed.

(** C9, amended.  With [device_option] set, after parsing, the device in
    the namespace is replaced by the path it resolves to, and when that
    path does not exist the node logs at critical severity and aborts by
    raising [IOError("CD-DA device <path> not found!")].  The abort differs
    from the no-drive abort in its message only: both raise [IOError], so
    their status is the same. *)
Theorem missing_device_aborts env c argv name opts h P trP l h1 tr1
    (ns : Namespace) device :
  device_option c = true →
  build_parser env c (init_parser c name) = (Ok tt, P, trP) →
  parse_args env P argv opts h = (Ok l, h1, tr1) →
  h1 !! l = Some ns →
  ns !! "device" = Some (VStr device) →
  path_exists env (realpath env device) = false →
  let resolved := realpath env device in
  init env c argv name opts h
  = (Raise (IOError (device_missing_msg resolved)),
     <[l := <["device" := VStr resolved]> ns]> h1,
     EvInit name argv opts :: trP ++ tr1
       ++ [EvLog CRITICAL (device_missing_msg resolved)])
  ∧ device_missing_msg resolved ≠ no_drives_msg
  ∧ status_of (IOError (device_missing_msg resolved))
    = status_of (IOError no_drives_msg).
Proof.
  intros Hdev Hb Hparse Hl Hd Hmissing resolved. subst resolved.
  split_and!; [|apply device_missing_msg_differs|done].
  assert (at_loc l (check_device env) h1
          = (Raise (IOError (device_missing_msg (realpath env device))),
             <[l := <["device" := VStr (realpath env device)]> ns]> h1,
             [EvLog CRITICAL (device_missing_msg (realpath env device))])) as Hcheck.
  { unfold at_loc. rewrite Hl. unfold check_device, mbind, ST_bind, get.
    rewrite Hd. unfold setattr. by rewrite Hmissing. }
  assert (prologue env c argv name opts h
          = (Raise (IOError (device_missing_msg (realpath env device))),
             <[l := <["device" := VStr (realpath env device)]> ns]> h1,
             EvInit name argv opts :: trP ++ tr1
               ++ [EvLog CRITICAL (device_missing_msg (realpath env device))])) as Hpro.
  { unfold prologue.
    rewrite (bind_ok (emit _) _ h tt h [EvInit name argv opts]) by done.
    rewrite (bind_ok (on_local _ _) _ h (tt, P) h trP)
      by (unfold on_local; by rewrite Hb).
    rewrite (bind_ok _ _ _ _ _ _ Hparse), Hdev.
    unfold mbind, ST_bind. by rewrite Hcheck. }
  rewrite init_unfold. unfold mbind, ST_bind. by rewrite Hpro.
Qed.

Lemma missing_device_aborts_witness :
  init Sample.env_unplugged Sample.rip ["encode"] "whipper" None ∅
  = (Raise (IOError "CD-DA device /dev/sr0 not found!"),
     {[ 0%nat := {[ "remainder" := VList ["encode"]; "device" := VStr "/dev/sr0" ]} ]},
     [EvInit "whipper" ["encode"] None; EvParse "whipper" ["encode"] 0%nat;
      EvLog CRITICAL "CD-DA device /dev/sr0 not found!"]).
Proof.
  pose (built := build_parser Sample.env_unplugged Sample.rip
                   (init_parser Sample.rip "whipper")).
  pose (parsed := parse_args Sample.env_unplugged built.1.2 ["encode"] None ∅).
  destruct (missing_device_aborts Sample.env_unplugged Sample.rip ["encode"]
              "whipper" None ∅ built.1.2 built.2 0%nat parsed.1.2 parsed.2
              {[ "remainder" := VList ["encode"]; "device" := VStr "/dev/cdrom" ]}
              "/dev/cdrom") as [H _];
    [reflexivity|vm_compute; reflexivity|vm_compute; reflexivity
    |vm_compute; reflexivity|reflexivity|reflexivity|].
  rewrite H. vm_compute. reflexivity.
Defined.

(** C9 as stated fails: the abort for a device path that does not exist and
    the abort for no drive at all have the same status. *)
Lemma device_missing_status_not_distinct :
  (init Sample.env_unplugged Sample.rip ["encode"] "whipper" None ∅).1.1
  = Raise (IOError "CD-DA device /dev/sr0 not found!")
  ∧ (init Sample.env_no_drive Sample.rip ["encode"] "whipper" None ∅).1.1
    = Raise (IOError "No CD-DA drives found!")
  ∧ ¬ (status_of (IOError "CD-DA device /dev/sr0 not found!")
       ≠ status_of (IOError "No CD-DA drives found!")).
Proof.
  split_and!; [vm_compute; reflexivity..|]. intros H. by apply H.
Qed.

Lemma lookup_section_witness :
  let call := add_argument_and_config Sample.env (Some "encode") ["--bitrate"]
                Sample.bitrate_kwargs SampleParsers.encode_parser0 in
  EvConfigGet "int" (VStr "encode") (VStr "bitrate") (VInt 320) ∈ call.2
  ∧ call.2 = [EvConfigGet "int" (VStr "encode") (VStr "bitrate") (VInt 320)].
Proof.
  intros call.
  assert (EvConfigGet "int" (VStr "encode") (VStr "bitrate") (VInt 320) ∈ call.2)
    as Hin by (vm_compute; left).
  split; [exact Hin|].
  exact (proj2 (lookup_section Sample.env (Some "encode") ["--bitrate"]
                  Sample.bitrate_kwargs SampleParsers.encode_parser0
                  "int" (VStr "encode") (VStr "bitrate") (VInt 320) Hin)).
Defined.

Lemma keywords_forwarded_witness :
  ∃ a,
    actions SampleParsers.encode_parser
    = actions SampleParsers.encode_parser0 ++ [a]
    ∧ option_strings a = ["--bitrate"]
    ∧ received a !! "default" = Some (VInt 192)
    ∧ received a !! "section" = None
    ∧ received a !! "type" = Some (VType Tint)
    ∧ received a !! "dest" = Some (VStr "bitrate").
Proof.
  pose (call := add_argument_and_config Sample.env (Some "encode") ["--bitrate"]
                  Sample.bitrate_kwargs SampleParsers.encode_parser0).
  destruct (keywords_forwarded Sample.env (Some "encode") ["--bitrate"]
              Sample.bitrate_kwargs SampleParsers.encode_parser0
              call.1.2 call.2)
    as (a & sfx & key & Hacts & Hflags & Htr & Hsec & Hdef & _ & Hother);
    [vm_compute; reflexivity|].
  exists a. vm_compute in Htr. injection Htr as <- <-.
  split_and!; [exact Hacts|exact Hflags| |exact Hsec|..].
  - rewrite Hdef. vm_compute. reflexivity.
  - rewrite Hother by done. reflexivity.
  - rewrite Hother by done. reflexivity.
Defined.

(** ** The scenario of section 8 of the spec

    [encode] declares [--bitrate] (dest [bitrate], type int, default 320) in
    section [encode]. *)

Example no_entry_no_flag : bitrate_after Sample.env_no_config [] = Some (VInt 320).
Proof. vm_compute. reflexivity. Qed.

Example entry_no_flag : bitrate_after Sample.env [] = Some (VInt 192).
Proof. vm_compute. reflexivity. Qed.

Example entry_and_flag :
  bitrate_after Sample.env ["--bitrate"; "128"] = Some (VInt 128).
Proof. vm_compute. reflexivity. Qed.

(** * Further properties of the code *)

(** ** [epilog] (lines 130-134) *)

Lemma ascii_compare_lt_trans a b c :
  Ascii.compare a b = Lt → Ascii.compare b c = Lt → Ascii.compare a c = Lt.
Proof.
  unfold Ascii.compare. rewrite !N.compare_lt_iff. apply N.lt_trans.
Qed.

Lemma string_compare_lt_trans s1 : ∀ s2 s3,
  String.compare s1 s2 = Lt → String.compare s2 s3 = Lt → String.compare s1 s3 = Lt.
Proof.
  induction s1 as [|a s1 IH]; intros [|b s2] [|c s3]; simpl; try done.
  destruct (Ascii.compare a b) eqn:Hab; try done;
    destruct (Ascii.compare b c) eqn:Hbc; try done; intros H1 H2.
  - apply Ascii.compare_eq_iff in Hab, Hbc. subst.
    assert (Ascii.compare c c = Eq) as -> by apply N.compare_refl. eauto.
  - apply Ascii.compare_eq_iff in Hab. subst. by rewrite Hbc.
  - apply Ascii.compare_eq_iff in Hbc. subst. by rewrite Hab.
  - by rewrite (ascii_compare_lt_trans a b c).
Qed.

Lemma string_compare_refl s : String.compare s s = Eq.
Proof.
  induction s as [|a s IH]; simpl; [done|].
  assert (Ascii.compare a a = Eq) as -> by apply N.compare_refl. exact IH.
Qed.

Lemma string_leb_trans s1 s2 s3 :
  String.leb s1 s2 = true → String.leb s2 s3 = true → String.leb s1 s3 = true.
Proof.
  unfold String.leb.
  destruct (String.compare s1 s2) eqn:H12; try done;
    destruct (String.compare s2 s3) eqn:H23; try done; intros _ _.
  - apply String.compare_eq_iff in H12. apply String.compare_eq_iff in H23.
    subst. by rewrite string_compare_refl.
  - apply String.compare_eq_iff in H12. subst. by rewrite H23.
  - apply String.compare_eq_iff in H23. subst. by rewrite H12.
  - by rewrite (string_compare_lt_trans s1 s2 s3).
Qed.

Lemma insert_sorted_perm k l : insert_sorted k l ≡ₚ k :: l.
Proof.
  induction l as [|x l IH]; simpl; [done|].
  destruct (String.leb k x); [done|]. rewrite IH. apply Permutation_swap.
Qed.

Lemma sorted_perm l : sorted l ≡ₚ l.
Proof.
  induction l as [|x l IH]; simpl; [done|].
  unfold sorted in *. simpl. rewrite insert_sorted_perm. by rewrite IH.
Qed.

Lemma insert_sorted_sorted k l :
  StronglySorted (λ x y, String.leb x y = true) l →
  StronglySorted (λ x y, String.leb x y = true) (insert_sorted k l).
Proof.
  induction 1 as [|x l Hl IH Hx]; simpl; [repeat constructor|].
  destruct (String.leb k x) eqn:Hk.
  - constructor; [by constructor|]. constructor; [done|].
    eapply Forall_impl; [exact Hx|]. intros y Hy. by eapply string_leb_trans.
  - constructor; [done|].
    rewrite (insert_sorted_perm k l). constructor; [|done].
    destruct (String.leb_total k x) as [H|H]; [congruence|done].
Qed.

Lemma sorted_sorted l : StronglySorted (λ x y, String.leb x y = true) (sorted l).
Proof.
  induction l as [|x l IH]; [constructor|].
  unfold sorted in *. simpl. by apply insert_sorted_sorted.
Qed.

Lemma string_app_assoc (s1 s2 s3 : string) :
  (s1 +:+ s2) +:+ s3 = s1 +:+ s2 +:+ s3.
Proof.
  induction s1 as [|c s1 IH]; [done|].
  change (String c ((s1 +:+ s2) +:+ s3) = String c (s1 +:+ s2 +:+ s3)).
  by rewrite IH.
Qed.

Lemma string_app_nil_r (s : string) : s +:+ "" = s.
Proof.
  induction s as [|c s IH]; [done|].
  change (String c (s +:+ "") = String c s). by rewrite IH.
Qed.

Lemma foldl_lines (line : string → string) l init :
  foldl (λ s com, s +:+ line com) init l
  = init +:+ foldr (λ com rest, line com +:+ rest) "" l.
Proof.
  revert init. induction l as [|com l IH]; intros init; cbn [foldl foldr].
  - by rewrite string_app_nil_r.
  - by rewrite IH, string_app_assoc.
Qed.

(** The text [epilog] returns is the heading followed by one line for each
    key of the table and nothing else, the lines in ascending order of
    their keys. *)
Theorem epilog_names_sorted (table : list (string * CommandClass)) :
  ∃ names,
    names ≡ₚ table.*1
    ∧ StronglySorted (λ x y, String.leb x y = true) names
    ∧ epilog table
      = "commands:" +:+ newline
        +:+ foldr (λ com rest,
                     ("  " +:+ ljust 8 com +:+ " " +:+ summary_of table com
                      +:+ newline) +:+ rest) "" names.
Proof.
  exists (sorted (table.*1)). split_and!.
  - apply sorted_perm.
  - apply sorted_sorted.
  - unfold epilog.
    rewrite (foldl_lines (λ com, "  " +:+ ljust 8 com +:+ " "
                                 +:+ summary_of table com +:+ newline)).
    by rewrite string_app_assoc.
Qed.

Lemma sorted_unique l1 l2 :
  StronglySorted (λ x y, String.leb x y = true) l1 →
  StronglySorted (λ x y, String.leb x y = true) l2 →
  l1 ≡ₚ l2 → l1 = l2.
Proof.
  intros H1. revert l2. induction H1 as [|x l1 Hl1 IH Hx]; intros l2 H2 Hp.
  { by apply Permutation_nil_l in Hp. }
  destruct H2 as [|y l2 Hl2 Hy].
  { by apply Permutation_nil_r in Hp. }
  assert (x = y) as ->.
  { apply String.leb_antisym.
    - assert (y ∈ x :: l1) as [->|Hin]%elem_of_cons by (rewrite Hp; by left).
      + unfold String.leb. by rewrite string_compare_refl.
      + by apply (proj1 (Forall_forall _ _) Hx).
    - assert (x ∈ y :: l2) as [->|Hin]%elem_of_cons by (rewrite <- Hp; by left).
      + unfold String.leb. by rewrite string_compare_refl.
      + by apply (proj1 (Forall_forall _ _) Hy). }
  f_equal. apply IH; [done|]. by apply (Permutation_cons_inv Hp).
Qed.

Lemma sorted_of_perm l1 l2 : l1 ≡ₚ l2 → sorted l1 = sorted l2.
Proof.
  intros Hp. apply sorted_unique; try apply sorted_sorted.
  by rewrite !sorted_perm.
Qed.

Lemma summary_of_entry table key c :
  NoDup (table.*1) → (key, c) ∈ table → summary_of table key = summary c.
Proof.
  unfold summary_of. induction table as [|[k c'] table IH]; intros Hnd Hin.
  { by apply elem_of_nil in Hin. }
  simpl in *. apply NoDup_cons in Hnd as [Hfresh Hnd].
  case_bool_decide as Hk; simpl in *.
  - subst k. apply elem_of_cons in Hin as [Heq|Hin]; [by simplify_eq|].
    destruct Hfresh. apply list_elem_of_fmap. by exists (key, c).
  - apply elem_of_cons in Hin as [Heq|Hin]; [by simplify_eq|]. by apply IH.
Qed.

Lemma foldl_ext_in {A B} (f g : A → B → A) (l : list B) a :
  (∀ a b, b ∈ l → f a b = g a b) → foldl f a l = foldl g a l.
Proof.
  revert a. induction l as [|b l IH]; intros a H; [done|]. simpl.
  rewrite H by (by left). apply IH. intros a' b' Hb. apply H. by right.
Qed.

(** The help text does not depend on the order in which the dictionary
    yields its entries. *)
Theorem epilog_order_independent (table1 table2 : list (string * CommandClass)) :
  NoDup (table1.*1) → table1 ≡ₚ table2 → epilog table1 = epilog table2.
Proof.
  intros Hnd Hp. unfold epilog.
  assert (NoDup (table2.*1)) as Hnd2 by (by rewrite <- Hp).
  rewrite (sorted_of_perm (map fst table1) (map fst table2))
    by (by apply fmap_Permutation).
  apply foldl_ext_in. intros s com Hcom.
  assert (com ∈ table2.*1) as Hin.
  { rewrite <- sorted_perm. done. }
  apply list_elem_of_fmap in Hin as ([k c] & -> & Hin). simpl.
  rewrite (summary_of_entry table2 k c) by done.
  rewrite (summary_of_entry table1 k c); [done..|by rewrite Hp].
Qed.

Lemma epilog_order_independent_witness :
  NoDup ([("encode", Sample.encode); ("rip", Sample.rip)].*1)
  ∧ epilog [("encode", Sample.encode); ("rip", Sample.rip)]
    = epilog [("rip", Sample.rip); ("encode", Sample.encode)].
Proof.
  assert (NoDup ([("encode", Sample.encode); ("rip", Sample.rip)].*1)) as Hnd.
  { apply NoDup_ListNoDup. repeat constructor; simpl; intuition discriminate. }
  split; [exact Hnd|].
  apply (epilog_order_independent _ _ Hnd). apply Permutation_swap.
Defined.

(** ** The call of [parse_args] on the shared namespace (line 83) *)



(** ** The catch-all positional (lines 64-67) *)




(** ** One namespace for the whole chain (lines 83 and 103-107) *)

(** Induction on a command class, with the property for every class of its
    table. *)
Lemma class_ind (Q : CommandClass → Prop) :
  (∀ c, match subcommands c with
        | Some table => Forall (λ kc, Q kc.2) table
        | None => True
        end → Q c) →
  ∀ c, Q c.
Proof.
  intros H. fix IH 1. intros c. apply H.
  destruct c as [d s dv na f cs aa [table|]]; simpl; [|exact I].
  revert table. fix IHt 1. intros [|[k c'] table]; constructor.
  - apply IH.
  - apply IHt.
Qed.

Lemma subcommand_elem table name c :
  subcommand table name = Some c → (name, c) ∈ table.
Proof.
  induction table as [|[key c'] table IH]; [done|].
  simpl. case_bool_decide.
  - intros ?. simplify_eq. by left.
  - intros ?. right. by apply IH.
Qed.

Lemma at_loc_frame {A} l (m : ST Namespace A) (h : Heap) l' :
  l' ≠ l → (at_loc l m h).1.2 !! l' = h !! l'.
Proof.
  intros Hne. unfold at_loc. destruct (h !! l) as [ns|]; [|done].
  destruct (m ns) as [[r ns'] tr]. simpl. by rewrite lookup_insert_ne.
Qed.

Lemma at_loc_dom {A} l (m : ST Namespace A) (h : Heap) :
  dom (at_loc l m h).1.2 = dom h.
Proof.
  unfold at_loc. destruct (h !! l) as [ns|] eqn:Hl; [|done].
  destruct (m ns) as [[r ns'] tr]. simpl.
  rewrite dom_insert_L. apply elem_of_dom_2 in Hl. set_solver.
Qed.

Lemma at_loc_no_parse {A} l (m : ST Namespace A) (h : Heap) :
  (∀ ns e, e ∈ (m ns).2 → is_parse e = false) →
  ∀ e, e ∈ (at_loc l m h).2 → is_parse e = false.
Proof.
  intros Hm e. unfold at_loc. destruct (h !! l) as [ns|].
  - specialize (Hm ns e). by destruct (m ns) as [[r ns'] tr].
  - by intros ?%elem_of_nil.
Qed.

Lemma parse_known_no_parse env P argv (ns : Namespace) e :
  e ∈ (parse_known env P argv ns).2 → is_parse e = false.
Proof.
  destruct (parse_known env P argv ns) as [[r ns'] tr] eqn:Hk.
  destruct (parse_known_outcome _ _ _ _ _ _ _ Hk) as [[_ ->]|[-> _]]; simpl.
  - by intros ->%list_elem_of_singleton.
  - by intros ?%elem_of_nil.
Qed.

Lemma check_device_no_parse env (ns : Namespace) e :
  e ∈ (check_device env ns).2 → is_parse e = false.
Proof.
  unfold check_device, mbind, ST_bind, get.
  destruct (ns !! "device") as [[]|]; try by intros ?%elem_of_nil.
  unfold setattr. destruct (path_exists env _); simpl.
  - by intros ?%elem_of_nil.
  - by intros ->%list_elem_of_singleton.
Qed.

Lemma build_parser_no_parse env c P e :
  e ∈ (build_parser env c P).2 → is_parse e = false.
Proof.
  unfold build_parser, mbind, ST_bind.
  pose proof (register_arguments_trace env c P) as Htr.
  destruct (register_arguments env c P) as [[[[]| | |] P1] tr1];
    try (intros He; by apply (config_get_not_parse _ Htr)).
  assert (∀ e, e ∈ (add_device_option env P1).2 → is_parse e = false) as Hdev.
  { intros e'. unfold add_device_option. destruct (drives env) as [|first rest].
    - unfold mbind, ST_bind, logger_critical, emit, raise. simpl.
      by intros ->%list_elem_of_singleton.
    - destruct (add_argument _ _ P1) as [[r P2] tr2] eqn:Ha.
      apply add_argument_trace in Ha as [-> _]. by intros ?%elem_of_nil. }
  destruct (device_option c).
  - destruct (add_device_option env P1) as [[r P2] tr2]. simpl in *.
    intros [He|He]%elem_of_app; [by apply (config_get_not_parse _ Htr)|by apply Hdev].
  - simpl. rewrite app_nil_r. intros He. by apply (config_get_not_parse _ Htr).
Qed.

(** [parse_args] writes to one object only, the namespace it was given or
    the one it made, which it returns and reports; it leaves the heap with
    that object in it. *)
Lemma parse_args_inv env P argv opts (h : Heap) :
  let l := namespace_of opts h in
  let run := parse_args env P argv opts h in
  (∀ l', l' ≠ l → run.1.2 !! l' = h !! l')
  ∧ (∀ e, e ∈ run.2 → is_parse e = true → e = EvParse (prog P) argv l)
  ∧ (∀ l1, run.1.1 = Ok l1 → l1 = l ∧ is_Some (run.1.2 !! l))
  ∧ dom h ⊆ dom run.1.2.
Proof.
  intros l run. subst run. unfold parse_args.
  assert (∃ h0, (match opts with
                 | Some l => mret l
                 | None => new_namespace
                 end : ST Heap loc) h = (Ok l, h0, [])
                ∧ (∀ l', l' ≠ l → h0 !! l' = h !! l')
                ∧ dom h ⊆ dom h0) as (h0 & Hl & Hframe & Hdom).
  { subst l. destruct opts as [l0|]; eexists; (split; [reflexivity|]); simpl.
    - done.
    - split; [|rewrite dom_insert_L; set_solver].
      intros l' Hne. by rewrite lookup_insert_ne. }
  rewrite (bind_ok _ _ _ _ _ _ Hl). unfold mbind, ST_bind, emit.
  pose proof (at_loc_frame l (parse_known env P argv) h0) as Hfr.
  pose proof (at_loc_dom l (parse_known env P argv) h0) as Hd.
  pose proof (at_loc_no_parse l (parse_known env P argv) h0
                (λ ns e, parse_known_no_parse env P argv ns e)) as Hnp.
  assert (∀ u, (at_loc l (parse_known env P argv) h0).1.1 = Ok u →
               is_Some ((at_loc l (parse_known env P argv) h0).1.2 !! l)) as Hsome.
  { intros u. unfold at_loc. destruct (h0 !! l) as [ns|]; [|done].
    destruct (parse_known env P argv ns) as [[r ns'] tr]. simpl.
    rewrite lookup_insert_eq. eauto. }
  destruct (at_loc l (parse_known env P argv) h0) as [[[[]| | |] h1] tr1];
    simpl in *; rewrite ?app_nil_r;
    (split_and!;
     [ intros l' Hne; rewrite Hfr by done; by apply Hframe
     | intros ev [->|He]%elem_of_cons Hp;
         [done|apply Hnp in He; congruence]
     | intros l1 ?; simplify_eq; eauto
     | set_solver ]).
Qed.

(** The prologue of [__init__]: the same for lines 57-93. *)
Lemma prologue_inv env c argv name opts (h : Heap) :
  let l := namespace_of opts h in
  let run := prologue env c argv name opts h in
  (∀ l', l' ≠ l → run.1.2 !! l' = h !! l')
  ∧ (∀ e, e ∈ run.2 → is_parse e = true → ∃ p a, e = EvParse p a l)
  ∧ (∀ P l1, run.1.1 = Ok (P, l1) → l1 = l ∧ is_Some (run.1.2 !! l))
  ∧ dom h ⊆ dom run.1.2.
Proof.
  intros l run. subst run.
  destruct (prologue env c argv name opts h) as [[res hf] trf] eqn:Hrun. simpl.
  unfold prologue in Hrun.
  unfold mbind at 1, ST_bind, emit in Hrun.
  unfold mbind at 1, ST_bind, on_local in Hrun.
  pose proof (build_parser_no_parse env c (init_parser c name)) as Hb.
  destruct (build_parser env c (init_parser c name)) as [[[[]| | |] P1] trB];
    simpl in Hb;
    try (simplify_eq/=; split_and!; [done| |done|done];
         intros ev [->|He]%elem_of_cons Hp; [done|apply Hb in He; congruence]).
  unfold mbind at 1, ST_bind in Hrun.
  destruct (parse_args_inv env P1 argv opts h) as (Hfr & Hev & Hok & Hdom).
  fold l in Hfr, Hev, Hok.
  destruct (parse_args env P1 argv opts h) as [[[l1| | |] h2] trP];
    simpl in Hfr, Hev, Hok, Hdom;
    try (simplify_eq/=; split_and!; [done| |done|done];
         intros ev [->|[He|He]%elem_of_app]%elem_of_cons Hp;
         [done|apply Hb in He; congruence|rewrite (Hev ev He Hp); eauto]).
  destruct (Hok l1 eq_refl) as [-> Hsome].
  unfold mbind, ST_bind in Hrun.
  destruct (device_option c).
  - pose proof (at_loc_frame l (check_device env) h2) as Hdfr.
    pose proof (at_loc_dom l (check_device env) h2) as Hddom.
    pose proof (at_loc_no_parse l (check_device env) h2
                  (λ ns e, check_device_no_parse env ns e)) as Hdnp.
    destruct (at_loc l (check_device env) h2) as [[[[]| | |] h3] trD];
      simplify_eq/=; rewrite ?app_nil_r;
      (split_and!;
       [ intros l' Hne; rewrite Hdfr by done; by apply Hfr
       | intros ev [->|[He|[He|He]%elem_of_app]%elem_of_app]%elem_of_cons Hp;
           [done|apply Hb in He; congruence|rewrite (Hev ev He Hp); eauto
           |apply Hdnp in He; congruence]
       | intros ? ? ?; simplify_eq;
           (split; [done|apply elem_of_dom; rewrite Hddom; by apply elem_of_dom])
       | set_solver ]).
  - simplify_eq/=. rewrite ?app_nil_r. split_and!; [done| |by intros ? ? [= <- <-]|done].
    intros ev [->|[He|He]%elem_of_app]%elem_of_cons Hp;
      [done|apply Hb in He; congruence|rewrite (Hev ev He Hp); eauto].
Qed.

Lemma init_inv env : ∀ c argv name opts (h : Heap),
  let l := namespace_of opts h in
  let run := init env c argv name opts h in
  (∀ l', l' ≠ l → run.1.2 !! l' = h !! l')
  ∧ (∀ e, e ∈ run.2 → is_parse e = true → ∃ p a, e = EvParse p a l)
  ∧ (∀ node, run.1.1 = Ok node → Forall (λ n, options n = l) (chain node)).
Proof.
  intros c. induction c as [c IH] using class_ind.
  intros argv name opts h l run. subst run.
  destruct (init env c argv name opts h) as [[res hf] trf] eqn:Hrun. simpl.
  rewrite init_unfold in Hrun.
  unfold mbind at 1, ST_bind in Hrun.
  destruct (prologue_inv env c argv name opts h) as (Hfr & Hev & Hok & _).
  fold l in Hfr, Hev, Hok.
  destruct (prologue env c argv name opts h) as [[[[P l1]| | |] h1] tr1];
    simpl in Hfr, Hev, Hok; try by simplify_eq/=.
  destruct (Hok P l1 eq_refl) as [-> Hsome].
  destruct (subcommands c) as [table|].
  2: { simplify_eq/=. rewrite app_nil_r. split_and!; try done.
       intros node ?. simplify_eq. simpl. by repeat constructor. }
  unfold mbind at 1, ST_bind in Hrun.
  pose proof (at_loc_frame l (read_remainder) h1) as Hrfr.
  assert (∀ e, e ∈ (at_loc l read_remainder h1).2 → is_parse e = false) as Hrnp.
  { apply at_loc_no_parse. intros ns e. unfold read_remainder, mbind, ST_bind, get.
    destruct (ns !! "remainder") as [[]|]; by intros ?%elem_of_nil. }
  destruct (at_loc l read_remainder h1) as [[[rem| | |] h2] tr2];
    simpl in Hrfr, Hrnp;
    try (simplify_eq/=; split_and!;
         [ intros l' Hne; rewrite Hrfr by done; by apply Hfr
         | intros ev [He|He]%elem_of_app Hp;
             [by apply Hev|apply Hrnp in He; congruence]
         | done ]).
  destruct rem as [|first tail].
  { unfold mbind, ST_bind, emit, sys_exit, raise in Hrun. simplify_eq/=.
    split_and!; [| |done].
    - intros l' Hne. rewrite Hrfr by done. by apply Hfr.
    - intros ev [He|[He|He]%elem_of_app]%elem_of_app Hp.
      + by apply Hev.
      + apply Hrnp in He. congruence.
      + apply list_elem_of_singleton in He as ->. done. }
  destruct (subcommand table first) as [child_class|] eqn:Hsub.
  2: { unfold mbind, ST_bind, logger_critical, emit, sys_exit, raise in Hrun.
       simplify_eq/=. split_and!; [| |done].
       - intros l' Hne. rewrite Hrfr by done. by apply Hfr.
       - intros ev [He|[He|He]%elem_of_app]%elem_of_app Hp.
         + by apply Hev.
         + apply Hrnp in He. congruence.
         + apply list_elem_of_singleton in He as ->. done. }
  apply subcommand_elem in Hsub.
  rewrite Forall_forall in IH. specialize (IH _ Hsub). simpl in IH.
  specialize (IH tail (name +:+ " " +:+ first) (Some l) h2). simpl in IH.
  destruct IH as (Hcfr & Hcev & Hcok).
  unfold mbind, ST_bind in Hrun.
  destruct (init env child_class tail (name +:+ " " +:+ first) (Some l) h2)
    as [[[child| | |] h3] tr3]; simpl in Hcfr, Hcev, Hcok;
    simplify_eq/=; rewrite ?app_nil_r;
    (split_and!;
     [ intros l' Hne; rewrite Hcfr, Hrfr by done; by apply Hfr
     | intros ev [He|[He|He]%elem_of_app]%elem_of_app Hp;
         [by apply Hev|apply Hrnp in He; congruence|by apply Hcev]
     | intros node ?; simplify_eq; simpl ]).
  constructor; [done|]. by apply Hcok.
Qed.

(** Every instance of the chain a construction leaves behind has the same
    namespace object as its [options]: the one passed as [opts], or the one
    the first [parse_args] made. *)
Theorem chain_shares_namespace env c argv name opts (h h' : Heap) node tr :
  init env c argv name opts h = (Ok node, h', tr) →
  Forall (λ n, options n = namespace_of opts h) (chain node).
Proof.
  intros Hrun. destruct (init_inv env c argv name opts h) as (_ & _ & Hok).
  apply Hok. by rewrite Hrun.
Qed.

Lemma chain_shares_namespace_witness :
  ∃ node h' tr,
    init Sample.env Sample.whipper ["encode"] "whipper" None ∅ = (Ok node, h', tr)
    ∧ length (chain node) = 2%nat
    ∧ Forall (λ n, options n = 0%nat) (chain node).
Proof.
  pose (run := init Sample.env Sample.whipper ["encode"] "whipper" None ∅).
  assert (∃ node, run = (Ok node, run.1.2, run.2)) as [node Hrun].
  { vm_compute. by eexists. }
  exists node, run.1.2, run.2. split; [exact Hrun|]. split.
  - assert (run.1.1 = Ok node) as Hn by (by rewrite Hrun).
    vm_compute in Hn. injection Hn as <-. reflexivity.
  - exact (chain_shares_namespace _ _ _ _ _ _ _ _ _ Hrun).
Defined.

(** Whatever the outcome, a construction writes to one object of the heap
    only, the namespace, and every [parse_args] of the chain is a call on
    that object. *)
Theorem init_writes_one_namespace env c argv name opts (h : Heap) :
  let run := init env c argv name opts h in
  (∀ l', l' ≠ namespace_of opts h → run.1.2 !! l' = h !! l')
  ∧ ∀ p a l', EvParse p a l' ∈ run.2 → l' = namespace_of opts h.
Proof.
  intros run. destruct (init_inv env c argv name opts h) as (Hfr & Hev & _).
  split; [exact Hfr|].
  intros p a l' He. destruct (Hev _ He eq_refl) as (p' & a' & Heq). by simplify_eq.
Qed.

(** ** Help before anything else (lines 83 and 109-119) *)





(** ** The device after construction (lines 69-91) *)

Lemma parse_args_steps env P argv opts (h h2 : Heap) l trP :
  parse_args env P argv opts h = (Ok l, h2, trP) →
  ∃ (ns0 ns2 : Namespace) tr,
    l = namespace_of opts h
    ∧ match opts with
      | Some l0 => h !! l0 = Some ns0
      | None => ns0 = ∅
      end
    ∧ parse_known env P argv ns0 = (Ok tt, ns2, tr)
    ∧ h2 !! l = Some ns2.
Proof.
  unfold parse_args. intros Hp. destruct opts as [l0|].
  - rewrite (bind_ok (mret l0) _ h l0 h []) in Hp by done.
    unfold mbind, ST_bind, emit, at_loc in Hp.
    destruct (h !! l0) as [ns0|] eqn:Hl; [|done].
    destruct (parse_known env P argv ns0) as [[[[]| | |] ns2] tr] eqn:Hk;
      simplify_eq/=.
    exists ns0, ns2, tr. split_and!; try done. by rewrite lookup_insert_eq.
  - rewrite (bind_ok new_namespace _ h (fresh (dom h)) (<[fresh (dom h) := ∅]> h) [])
      in Hp by done.
    unfold mbind, ST_bind, emit, at_loc in Hp. rewrite lookup_insert_eq in Hp.
    destruct (parse_known env P argv ∅) as [[[[]| | |] ns2] tr] eqn:Hk;
      simplify_eq/=.
    exists ∅, ns2, tr. split_and!; try done. by rewrite lookup_insert_eq.
Qed.

Lemma prologue_steps env c argv name opts (h h1 : Heap) P l tr :
  prologue env c argv name opts h = (Ok (P, l), h1, tr) →
  ∃ trB h2 trP,
    build_parser env c (init_parser c name) = (Ok tt, P, trB)
    ∧ parse_args env P argv opts h = (Ok l, h2, trP)
    ∧ if device_option c
      then ∃ trD, at_loc l (check_device env) h2 = (Ok tt, h1, trD)
      else h1 = h2.
Proof.
  unfold prologue. intros Hrun.
  unfold mbind at 1, ST_bind, emit in Hrun.
  unfold mbind at 1, ST_bind, on_local in Hrun.
  destruct (build_parser env c (init_parser c name)) as [[[[]| | |] P1] trB] eqn:Hb;
    try done.
  unfold mbind at 1, ST_bind in Hrun.
  destruct (parse_args env P1 argv opts h) as [[[l1| | |] h2] trP] eqn:Hp;
    try done.
  unfold mbind, ST_bind in Hrun.
  destruct (device_option c).
  - destruct (at_loc l1 (check_device env) h2) as [[[[]| | |] h3] trD] eqn:Hd;
      simplify_eq/=. exists trB, h2, trP. split_and!; try done. by exists trD.
  - simplify_eq/=. by exists trB, h1, trP.
Qed.

Lemma check_device_ok env l (h2 h1 : Heap) trD :
  at_loc l (check_device env) h2 = (Ok tt, h1, trD) →
  ∃ (ns : Namespace) chosen,
    h2 !! l = Some ns
    ∧ ns !! "device" = Some (VStr chosen)
    ∧ path_exists env (realpath env chosen) = true
    ∧ h1 = <[l := <["device" := VStr (realpath env chosen)]> ns]> h2.
Proof.
  unfold at_loc. intros Hd. destruct (h2 !! l) as [ns|]; [|done].
  unfold check_device, mbind, ST_bind, get in Hd.
  destruct (ns !! "device") as [[| | | |chosen| |]|] eqn:Hdev; try done.
  unfold setattr in Hd.
  destruct (path_exists env (realpath env chosen)) eqn:Hex; simplify_eq/=.
  by exists ns, chosen.
Qed.

(** When a command with [device_option] has been constructed up to
    [handle_arguments], the device in the namespace is a path as
    [os.path.realpath] returns it, and one that exists. *)
Theorem device_is_resolved_and_exists env c argv name opts (h h1 : Heap) P l tr :
  device_option c = true →
  prologue env c argv name opts h = (Ok (P, l), h1, tr) →
  ∃ (ns : Namespace) chosen,
    h1 !! l = Some ns
    ∧ ns !! "device" = Some (VStr (realpath env chosen))
    ∧ path_exists env (realpath env chosen) = true.
Proof.
  intros Hdev (trB & h2 & trP & _ & _ & Hcheck)%prologue_steps.
  rewrite Hdev in Hcheck. destruct Hcheck as [trD Hcheck].
  apply check_device_ok in Hcheck as (ns & chosen & _ & _ & Hex & ->).
  eexists _, chosen. split_and!; [apply lookup_insert_eq|apply lookup_insert_eq|done].
Qed.

Lemma device_is_resolved_and_exists_witness :
  ∃ (ns : Namespace),
    (prologue Sample.env Sample.rip ["-d"; "/dev/cdrom"; "encode"] "whipper" None ∅).1.2
      !! 0%nat = Some ns
    ∧ ns !! "device" = Some (VStr "/dev/sr0").
Proof.
  pose (run := prologue Sample.env Sample.rip ["-d"; "/dev/cdrom"; "encode"]
                 "whipper" None ∅).
  destruct (device_is_resolved_and_exists Sample.env Sample.rip
              ["-d"; "/dev/cdrom"; "encode"] "whipper" None ∅ run.1.2
              (build_parser Sample.env Sample.rip (init_parser Sample.rip "whipper")).1.2
              0%nat run.2)
    as (ns & chosen & Hl & Hd & _); [reflexivity|vm_compute; reflexivity|].
  exists ns. split; [exact Hl|].
  assert (run.1.2 !! 0%nat ≫= (.!! "device") = Some (VStr "/dev/sr0")) as Hv
    by (vm_compute; reflexivity).
  unfold loc in *. rewrite Hl in Hv. exact Hv.
Defined.

Lemma build_parser_device env c P0 P trB :
  device_option c = true →
  build_parser env c P0 = (Ok tt, P, trB) →
  ∃ first a,
    head (drives env) = Some first
    ∧ a ∈ actions P ∧ dest a = "device" ∧ dflt a = Some (VStr first)
    ∧ type_ a = None ∧ kind a = Store.
Proof.
  unfold build_parser, mbind, ST_bind. intros Hdev Hb.
  destruct (register_arguments env c P0) as [[[[]| | |] P1] tr1]; try done.
  rewrite Hdev in Hb. unfold add_device_option in Hb.
  destruct (drives env) as [|first rest]; [by run_in Hb|].
  destruct (add_argument _ _ P1) as [[[[]| | |] P2] tr2] eqn:Ha; simplify_eq.
  apply add_argument_ok in Ha as (a & -> & _ & _ & _ & [[Hopt _]|(n & ? & _)]);
    [|done].
  apply make_optional_ok in Hopt as (_ & _ & Hdest & Hk & Hty & Hdf & _).
  exists first, a. simpl.
  assert (kind a = Store) as Hkind.
  { unfold kind_of, device_kwargs in Hk. by simplify_map_eq. }
  rewrite Hkind in Hty, Hdf.
  assert (dest a = "device") as Hd.
  { unfold device_kwargs in Hdest. by simplify_map_eq. }
  assert (dflt a = Some (VStr first)) as Hdflt.
  { rewrite Hdf. unfold default_of, device_kwargs. by simplify_map_eq. }
  assert (type_ a = None) as Htype.
  { unfold type_of, device_kwargs in Hty. by simplify_map_eq. }
  split_and!; try done. set_solver.
Qed.

(** Which device: in a command with [device_option] whose own arguments do
    not write [device], constructed on a namespace that does not hold
    [device] yet, the device is the one given with [-d] or [--device] (the
    last one, when given more than once) and the first drive listed when
    none is given; it is stored as the path it resolves to. *)
Theorem device_defaults_to_first_drive env c argv name opts (h h1 : Heap) P l tr :
  device_option c = true →
  length (filter (λ b, dest b = "device") (actions P)) = 1%nat →
  (∀ l0 (ns0 : Namespace), opts = Some l0 → h !! l0 = Some ns0 →
     ns0 !! "device" = None) →
  prologue env c argv name opts h = (Ok (P, l), h1, tr) →
  ∃ first chosen,
    head (drives env) = Some first
    ∧ default (VStr first) (given env P "device" argv) = VStr chosen
    ∧ h1 !! l ≫= (.!! "device") = Some (VStr (realpath env chosen))
    ∧ path_exists env (realpath env chosen) = true.
Proof.
  intros Hdev Huniq Hfresh (trB & h2 & trP & Hb & Hparse & Hcheck)%prologue_steps.
  rewrite Hdev in Hcheck. destruct Hcheck as [trD Hcheck].
  apply check_device_ok in Hcheck as (ns & chosen & Hl & Hd & Hex & ->).
  apply (build_parser_device _ _ _ _ _ Hdev) in Hb
    as (first & a & Hfirst & Ha & Hdest & Hdflt & Hty & Hkind).
  apply parse_args_steps in Hparse as (ns0 & ns2 & trK & -> & Hns0 & Hk & Hl2).
  rewrite Hl in Hl2. simplify_eq.
  exists first, chosen. split_and!; try done.
  2: { rewrite lookup_insert_eq. simpl. apply lookup_insert_eq. }
  assert (ns0 !! "device" = None) as Hnone.
  { destruct opts as [l0|]; [by eapply Hfresh|by subst]. }
  apply (parse_known_fresh env P a) in Hk.
  - rewrite Hdest, Hd, Hdflt, Hty in Hk.
    destruct (given env P "device" argv); by simplify_eq/=.
  - done.
  - intros b Hb Heq. rewrite Hdest in Heq.
    by apply (filter_singleton (λ b, dest b = "device") (actions P)).
  - by rewrite Hkind.
  - by rewrite Hdest.
  - by rewrite Hdflt.
Qed.

Lemma device_defaults_to_first_drive_witness :
  (prologue Sample.env Sample.rip ["encode"] "whipper" None ∅).1.2
    !! 0%nat ≫= (.!! "device") = Some (VStr "/dev/sr0").
Proof.
  pose (run := prologue Sample.env Sample.rip ["encode"] "whipper" None ∅).
  pose (P := (build_parser Sample.env Sample.rip (init_parser Sample.rip "whipper")).1.2).
  destruct (device_defaults_to_first_drive Sample.env Sample.rip ["encode"]
              "whipper" None ∅ run.1.2 P 0%nat run.2)
    as (first & chosen & Hfirst & Hchosen & Hl & _);
    [reflexivity|reflexivity|done|vm_compute; reflexivity|].
  vm_compute in Hfirst, Hchosen. simplify_eq. exact Hl.
Defined.

(** ** What the catch-all positional receives (lines 64-67, 83) *)




(** ** The type suffix of a call that succeeds (lines 168-171) *)

(** A call of [add_argument_and_config] that succeeds makes its one look-up
    with the suffix ["int"] when [type] is [int], ["float"] when it is
    [float] and the empty suffix when no [type] is passed; with any other
    [type] the call does not succeed. *)
Theorem suffix_names_the_numeric_type env cs args (kwargs : Kwargs) P P' tr :
  add_argument_and_config env cs args kwargs P = (Ok tt, P', tr) →
  ∃ sfx section key d,
    tr = [EvConfigGet sfx section key d]
    ∧ match kwargs !! "type" with
      | None => sfx = ""
      | Some ty => ∃ t, ty = VType t ∧ (t = Tint ∨ t = Tfloat) ∧ sfx = type_name t
      end.
Proof.
  intros Hc.
  destruct (call_cases env cs args kwargs P)
    as [(_ & _ & Hno)|(sfx & key & _ & Hsfx & Htr & _)].
  { rewrite Hc in Hno. by destruct (Hno tt). }
  rewrite Hc in Htr. simpl in Htr.
  exists sfx, (section_for cs kwargs), key, (code_default kwargs).
  split; [done|].
  rewrite typesuffix_of_cases, forwarded_lookup in Hsfx by done.
  destruct (kwargs !! "type") as [[| | | | | |[]]|]; simplify_eq; eauto.
Qed.

Lemma suffix_names_the_numeric_type_witness :
  ∃ section key d,
    (add_argument_and_config Sample.env (Some "encode") ["--bitrate"]
       Sample.bitrate_kwargs SampleParsers.encode_parser0).2
    = [EvConfigGet "int" section key d].
Proof.
  pose (call := add_argument_and_config Sample.env (Some "encode") ["--bitrate"]
                  Sample.bitrate_kwargs SampleParsers.encode_parser0).
  destruct (suffix_names_the_numeric_type Sample.env (Some "encode") ["--bitrate"]
              Sample.bitrate_kwargs SampleParsers.encode_parser0 call.1.2 call.2)
    as (sfx & section & key & d & Htr & Hsfx); [vm_compute; reflexivity|].
  exists section, key, d. fold call. rewrite Htr.
  assert (Sample.bitrate_kwargs !! "type" = Some (VType Tint)) as Hty by reflexivity.
  rewrite Hty in Hsfx. destruct Hsfx as (t & [= <-] & _ & ->). reflexivity.
Defined.

(** ** One argument for each call (lines 62-81) *)

Lemma run_add_arguments_count env cs calls P u P' tr :
  run_add_arguments env cs calls P = (Ok u, P', tr) →
  length (actions P') = (length (actions P) + length calls)%nat
  ∧ length tr = length (List.filter uses_config calls).
Proof.
  revert P tr. induction calls as [|call calls IH]; intros P tr Hrun.
  { run_in Hrun. simplify_eq. simpl. split; [lia|done]. }
  simpl in Hrun. unfold mbind, ST_bind in Hrun.
  match type of Hrun with
  | context [match ?step P with _ => _ end] =>
      destruct (step P) as [[[[]| | |] P1] tr1] eqn:Hstep; try done
  end.
  destruct (run_add_arguments env cs calls P1) as [[r P2] tr2] eqn:Hrec.
  simplify_eq. apply IH in Hrec as [Hlen Htr].
  rewrite Hlen, length_app, Htr.
  destruct call as [args kwargs|args kwargs]; simpl.
  - apply registered in Hstep as (a & ? & ? & -> & _ & -> & _).
    rewrite length_app. simpl. split; lia.
  - apply add_argument_ok in Hstep as (a & -> & -> & _). simpl.
    rewrite length_app. simpl. split; lia.
Qed.

(** When the parser of a node has been built, it has one more argument for
    each call its [add_arguments] made, one for the catch-all positional
    when the class has subcommands and one for the device option when it
    has [device_option]; the store was consulted once for each call of
    [add_argument_and_config] and not otherwise. *)
Theorem one_argument_per_call env c P0 P tr :
  build_parser env c P0 = (Ok tt, P, tr) →
  length (actions P)
  = (length (actions P0) + length (add_arguments c)
     + (match subcommands c with Some _ => 1 | None => 0 end)
     + (if device_option c then 1 else 0))%nat
  ∧ length tr = length (List.filter uses_config (add_arguments c))
  ∧ Forall (λ e, is_config_get e = true) tr.
Proof.
  intros Hb. split_and!; [| |by apply build_parser_ok in Hb as [_ ?]].
  all: unfold build_parser, mbind, ST_bind in Hb.
  all: destruct (register_arguments env c P0) as [[[[]| | |] P1] tr1] eqn:Hreg;
    try done.
  all: unfold register_arguments, mbind, ST_bind in Hreg.
  all: destruct (run_add_arguments env _ _ P0) as [[[[]| | |] Pa] tra] eqn:Hrun;
    try done.
  all: apply run_add_arguments_count in Hrun as [Hlen Htr].
  all: assert (length (actions P1)
               = (length (actions Pa) + (match subcommands c with Some _ => 1 | None => 0 end))%nat
               ∧ tr1 = tra) as [Hlen1 ->].
  1,3: destruct (subcommands c);
    [ destruct (add_argument _ _ Pa) as [[[[]| | |] Pb] trb] eqn:Ha; simplify_eq;
      apply add_argument_ok in Ha as (a & -> & -> & _); simpl;
      rewrite length_app, app_nil_r; simpl; split; [lia|done]
    | run_in Hreg; simplify_eq; rewrite app_nil_r; split; [lia|done] ].
  all: assert (length (actions P)
               = (length (actions P1) + (if device_option c then 1 else 0))%nat
               ∧ tr = tra) as [Hlen2 ->].
  1,3: destruct (device_option c);
    [ unfold add_device_option in Hb; destruct (drives env) as [|first rest];
      [by run_in Hb|];
      destruct (add_argument _ _ P1) as [[[[]| | |] P2] tr2] eqn:Ha; simplify_eq;
      apply add_argument_ok in Ha as (a & -> & -> & _); simpl;
      rewrite length_app, app_nil_r; simpl; split; [lia|done]
    | run_in Hb; simplify_eq; rewrite app_nil_r; split; [lia|done] ].
  - lia.
  - done.
Qed.

Lemma one_argument_per_call_witness :
  let built := build_parser Sample.env Sample.cd (init_parser Sample.cd "whipper cd") in
  length (actions built.1.2) = 5%nat
  ∧ length built.2 = 1%nat
  ∧ Forall (λ e, is_config_get e = true) built.2.
Proof.
  intros built.
  destruct (one_argument_per_call Sample.env Sample.cd
              (init_parser Sample.cd "whipper cd") built.1.2 built.2)
    as (Hlen & Htr & Hall); [vm_compute; reflexivity|].
  split_and!; [|exact Htr|exact Hall].
  rewrite Hlen. reflexivity.
Defined.

(** ** One instance for each token of the command path (lines 95-107) *)

Lemma entered_app tr1 tr2 : entered (tr1 ++ tr2) = entered tr1 ++ entered tr2.
Proof. apply omap_app. Qed.

Lemma entered_quiet tr : quiet tr → entered tr = [].
Proof.
  induction 1 as [|e tr He _ IH]; [done|].
  unfold entered in *. by destruct e.
Qed.

Lemma init_chain env : ∀ c argv name opts (h h' : Heap) node tr,
  init env c argv name opts h = (Ok node, h', tr) →
  prog_name node = name
  ∧ self_opts node = opts
  ∧ (is_Some (cmd node) ↔ is_Some (subcommands c))
  ∧ entered tr = prog_name <$> chain node
  ∧ Forall (λ n, prog (parser n) = prog_name n) (chain node).
Proof.
  intros c. induction c as [c IH] using class_ind.
  intros argv name opts h h' node tr Hrun.
  rewrite init_unfold in Hrun. unfold mbind at 1, ST_bind in Hrun.
  destruct (prologue env c argv name opts h) as [[[[P l]| | |] h1] tr1] eqn:Hpro;
    try done.
  apply prologue_ok in Hpro as (Hprog & _ & tr' & -> & Hq).
  destruct (subcommands c) as [table|].
  2: { run_in Hrun. simplify_eq. simpl. rewrite app_nil_r.
       rewrite (entered_quiet _ Hq).
       split_and!;
         first [done | by repeat constructor | (split; intros [? ?]; done)]. }
  unfold mbind at 1, ST_bind in Hrun.
  pose proof (at_loc_quiet l read_remainder h1) as Hrq.
  destruct (at_loc l read_remainder h1) as [[[rem| | |] h2] tr2]; try done.
  assert (quiet tr2) as Hq2.
  { apply Hrq. intros ns. unfold read_remainder, mbind, ST_bind, get.
    destruct (ns !! "remainder") as [[]|]; constructor. }
  destruct rem as [|first tail]; [by run_in Hrun|].
  destruct (subcommand table first) as [child_class|] eqn:Hsub; [|by run_in Hrun].
  apply subcommand_elem in Hsub.
  rewrite Forall_forall in IH. specialize (IH _ Hsub). simpl in IH.
  unfold mbind, ST_bind in Hrun.
  destruct (init env child_class tail (name +:+ " " +:+ first) (Some l) h2)
    as [[[child| | |] h3] tr3] eqn:Hchild; simplify_eq/=.
  apply IH in Hchild as (Hname & _ & _ & Hent & Hall).
  rewrite app_nil_r, !entered_app, (entered_quiet _ Hq), (entered_quiet _ Hq2), Hent.
  split_and!; try done. by constructor.
Qed.

(** A construction that succeeds has entered one constructor for each node
    of the chain it leaves, in the order of the chain and under the
    program name the node has, which is also the [prog] of its parser. *)
Theorem one_constructor_per_node env c argv name opts (h h' : Heap) node tr :
  init env c argv name opts h = (Ok node, h', tr) →
  entered tr = prog_name <$> chain node
  ∧ Forall (λ n, prog (parser n) = prog_name n) (chain node).
Proof. intros Hrun. apply init_chain in Hrun. naive_solver. Qed.

Lemma one_constructor_per_node_witness :
  let run := init Sample.env Sample.whipper ["encode"] "whipper" None ∅ in
  ∃ node, run.1.1 = Ok node
          ∧ entered run.2 = prog_name <$> chain node
          ∧ entered run.2 = ["whipper"; "whipper encode"].
Proof.
  intros run.
  assert (∃ node, run = (Ok node, run.1.2, run.2)) as [node Hrun].
  { vm_compute. by eexists. }
  exists node. split; [by rewrite Hrun|]. split; [|reflexivity].
  by destruct (one_constructor_per_node _ _ _ _ _ _ _ _ _ Hrun) as [Hent _].
Defined.

(** [do] on an instance that has been constructed: for a class with
    subcommands the attribute [cmd] is there, and [do] returns whatever the
    [do] of that child returns; for a class without subcommands the method
    of the base class raises [AttributeError], so such a class has to
    override it. *)
Theorem do_delegates_to_cmd env c argv name opts (h h' : Heap) node tr :
  init env c argv name opts h = (Ok node, h', tr) →
  match subcommands c with
  | Some _ =>
      ∃ child, cmd node = Some child
               ∧ ∀ A (child_do : Node → result A), do child_do node = child_do child
  | None =>
      ∀ A (child_do : Node → result A),
        do child_do node = Raise (AttributeError "object has no attribute 'cmd'")
  end.
Proof.
  intros Hrun. apply init_chain in Hrun as (_ & _ & Hcmd & _).
  unfold do. destruct (subcommands c) as [table|].
  - destruct (proj2 Hcmd) as [child Hchild]; [by eexists|].
    exists child. split; [done|]. intros A child_do. by rewrite Hchild.
  - destruct (cmd node) as [child|] eqn:Hchild; [|done].
    destruct (proj1 Hcmd) as [? ?]; [by eexists|done].
Qed.

Lemma do_delegates_to_cmd_witness :
  let run := init Sample.env Sample.whipper ["encode"] "whipper" None ∅ in
  ∃ node child,
    run.1.1 = Ok node
    ∧ cmd node = Some child
    ∧ ∀ A (child_do : Node → result A), do child_do node = child_do child.
Proof.
  intros run.
  assert (∃ node, run = (Ok node, run.1.2, run.2)) as [node Hrun].
  { vm_compute. by eexists. }
  destruct (do_delegates_to_cmd _ _ _ _ _ _ _ _ _ Hrun) as (child & Hchild & Hdo).
  exists node, child. split; [by rewrite Hrun|]. by split.
Defined.

(** ** Exit statuses (lines 83, 96-102) *)

Lemma parse_known_exit env P argv (ns ns' : Namespace) e tr :
  parse_known env P argv ns = (Raise e, ns', tr) →
  (e = SystemExit 0 ∧ tr = [EvPrintHelp (prog P)]) ∨ (e = SystemExit 2 ∧ tr = []).
Proof.
  intros Hp.
  destruct (parse_known_outcome _ _ _ _ _ _ _ Hp) as [[? ->]|[-> He]].
  - left. by simplify_eq.
  - right. split; [by apply He|done].
Qed.

Lemma exit_cause_app code pre tr : exit_cause code tr → exit_cause code (pre ++ tr).
Proof.
  unfold exit_cause. rewrite !last_app.
  intros [(? & p & ->)|[(? & f & ->)|(? & p & a & l & ->)]]; eauto 10.
Qed.

Lemma parse_args_exit env P argv opts (h h' : Heap) e tr :
  parse_args env P argv opts h = (Raise e, h', tr) →
  ∃ code, e = SystemExit code ∧ exit_cause code tr.
Proof.
  unfold parse_args. intros Hp.
  assert (∃ l h0, (match opts with
                   | Some l => mret l
                   | None => new_namespace
                   end : ST Heap loc) h = (Ok l, h0, [])) as (l & h0 & Hl).
  { destruct opts as [l0|]; by eexists _, _. }
  rewrite (bind_ok _ _ _ _ _ _ Hl) in Hp.
  unfold mbind, ST_bind, emit, at_loc in Hp.
  destruct (h0 !! l) as [ns|]; [|done].
  destruct (parse_known env P argv ns) as [[[[]| | |] ns'] tr'] eqn:Hk;
    simplify_eq/=.
  apply parse_known_exit in Hk as [[-> ->]|[-> ->]]; eexists; (split; [done|]).
  - left. split; [done|]. by eexists.
  - right. right. split; [done|]. by eexists _, _, _.
Qed.

Lemma make_optional_raise flags (kwargs : Kwargs) e :
  make_optional flags kwargs ≠ Raise e.
Proof. unfold make_optional. by repeat case_match. Qed.

Lemma make_positional_raise name (kwargs : Kwargs) e :
  make_positional name kwargs ≠ Raise e.
Proof. unfold make_positional. by repeat case_match. Qed.

Lemma add_argument_raise args (kwargs : Kwargs) P e P' tr :
  add_argument args kwargs P = (Raise e, P', tr) → ∀ code, e ≠ SystemExit code.
Proof.
  unfold add_argument. intros H code.
  match type of H with
  | context [match ?m with Ok _ => _ | _ => _ end] => destruct m as [a|e0| |] eqn:Hm
  end; try by simplify_eq.
  - destruct (existsb _ _); by simplify_eq.
  - destruct args as [|x [|y l]]; simplify_eq.
    + case_match; [by apply make_optional_raise in Hm
                  |by apply make_positional_raise in Hm].
    + case_match; simplify_eq. by apply make_optional_raise in Hm.
Qed.

Lemma call_raise env cs args (kwargs : Kwargs) P e P' tr :
  add_argument_and_config env cs args kwargs P = (Raise e, P', tr) →
  ∀ code, e ≠ SystemExit code.
Proof.
  intros Hc code.
  destruct (kwargs !! "dest") as [key|] eqn:Hd.
  2: { rewrite missing_dest_call in Hc by done. by simplify_eq. }
  rewrite (call_unfold _ _ _ _ key) in Hc by done.
  unfold mbind, ST_bind in Hc. rewrite typesuffix_of_cases in Hc.
  destruct (forwarded kwargs !! "type") as [[| | | | | |[]]|]; try done;
    unfold getter_or_default, mbind, ST_bind, emit, mret, ST_ret in Hc; simpl in Hc;
    match type of Hc with
    | context [add_argument ?a ?k ?p] =>
        destruct (add_argument a k p) as [[[[]| | |] P0] tr0] eqn:Ha
    end; simplify_eq; by eapply add_argument_raise.
Qed.

Lemma run_add_arguments_raise env cs calls P e P' tr :
  run_add_arguments env cs calls P = (Raise e, P', tr) → ∀ code, e ≠ SystemExit code.
Proof.
  intros Hr code. revert P tr Hr.
  induction calls as [|call calls IH]; intros P tr Hr; [by run_in Hr|].
  simpl in Hr. unfold mbind, ST_bind in Hr.
  match type of Hr with
  | context [match ?step P with _ => _ end] =>
      destruct (step P) as [[[[]| | |] P3] tr3] eqn:Hstep; try done
  end.
  - destruct (run_add_arguments env cs calls P3) as [[r P4] tr4] eqn:Hrec.
    simplify_eq. by eapply IH.
  - simplify_eq.
    destruct call; [by eapply call_raise|by eapply add_argument_raise].
Qed.

Lemma register_arguments_raise env c P e P' tr :
  register_arguments env c P = (Raise e, P', tr) → ∀ code, e ≠ SystemExit code.
Proof.
  unfold register_arguments, mbind, ST_bind. intros Hr code.
  destruct (run_add_arguments env _ _ P) as [[[[]| | |] Pa] tra] eqn:Hrun;
    try done.
  - destruct (subcommands c); [|by run_in Hr].
    destruct (add_argument _ _ Pa) as [[[[]| | |] Pb] trb] eqn:Ha; simplify_eq;
      by eapply add_argument_raise.
  - simplify_eq. by eapply run_add_arguments_raise.
Qed.

Lemma build_parser_raise env c P0 e P tr :
  build_parser env c P0 = (Raise e, P, tr) → ∀ code, e ≠ SystemExit code.
Proof.
  unfold build_parser, mbind, ST_bind. intros Hb code.
  destruct (register_arguments env c P0) as [[[[]| | |] P1] tr1] eqn:Hreg;
    try done.
  - destruct (device_option c); [|by run_in Hb].
    unfold add_device_option in Hb. destruct (drives env) as [|first rest].
    { run_in Hb. by simplify_eq. }
    destruct (add_argument _ _ P1) as [[[[]| | |] P2] tr2] eqn:Ha; simplify_eq;
      by eapply add_argument_raise.
  - simplify_eq. by eapply register_arguments_raise.
Qed.

Lemma check_device_raise env l (h h' : Heap) e tr :
  at_loc l (check_device env) h = (Raise e, h', tr) → ∀ code, e ≠ SystemExit code.
Proof.
  unfold at_loc. intros Hd code. destruct (h !! l) as [ns|]; [|done].
  unfold check_device, mbind, ST_bind, get, setattr in Hd.
  destruct (ns !! "device") as [[]|]; try (run_in Hd; by simplify_eq).
  destruct (path_exists env _); run_in Hd; by simplify_eq.
Qed.

Lemma read_remainder_raise l (h h' : Heap) e tr :
  at_loc l read_remainder h = (Raise e, h', tr) → ∀ code, e ≠ SystemExit code.
Proof.
  unfold at_loc. intros Hd code. destruct (h !! l) as [ns|]; [|done].
  unfold read_remainder, mbind, ST_bind, get in Hd.
  destruct (ns !! "remainder") as [[]|]; run_in Hd; by simplify_eq.
Qed.

Lemma prologue_exit env c argv name opts (h h' : Heap) code tr :
  prologue env c argv name opts h = (Raise (SystemExit code), h', tr) →
  exit_cause code tr.
Proof.
  unfold prologue. intros Hrun.
  unfold mbind at 1, ST_bind, emit in Hrun.
  unfold mbind at 1, ST_bind, on_local in Hrun.
  destruct (build_parser env c (init_parser c name)) as [[[[]| | |] P1] trB] eqn:Hb;
    simplify_eq/=.
  2: { by eapply build_parser_raise in Hb. }
  unfold mbind at 1, ST_bind in Hrun.
  destruct (parse_args env P1 argv opts h) as [[[l1| | |] h2] trP] eqn:Hp;
    simplify_eq/=.
  2: { apply parse_args_exit in Hp as (code' & [= <-] & Hcause).
       apply (exit_cause_app _ (EvInit name argv opts :: trB)), Hcause. }
  unfold mbind, ST_bind in Hrun.
  destruct (device_option c); [|by run_in Hrun].
  destruct (at_loc l1 (check_device env) h2) as [[[[]| | |] h3] trD] eqn:Hd;
    simplify_eq/=.
  by eapply check_device_raise in Hd.
Qed.

Lemma init_exit env : ∀ c argv name opts (h h' : Heap) code tr,
  init env c argv name opts h = (Raise (SystemExit code), h', tr) →
  exit_cause code tr.
Proof.
  intros c. induction c as [c IH] using class_ind.
  intros argv name opts h h' code tr Hrun.
  rewrite init_unfold in Hrun. unfold mbind at 1, ST_bind in Hrun.
  destruct (prologue env c argv name opts h) as [[[[P l]| | |] h1] tr1] eqn:Hpro;
    simplify_eq/=.
  2: { by apply prologue_exit in Hpro. }
  destruct (subcommands c) as [table|]; [|by run_in Hrun].
  unfold mbind at 1, ST_bind in Hrun.
  destruct (at_loc l read_remainder h1) as [[[rem| | |] h2] tr2] eqn:Hrem;
    simplify_eq/=.
  2: { by eapply read_remainder_raise in Hrem. }
  destruct rem as [|first tail].
  { run_in Hrun. simplify_eq. rewrite app_assoc. apply exit_cause_app.
    left. split; [done|]. by eexists. }
  destruct (subcommand table first) as [child_class|] eqn:Hsub.
  2: { run_in Hrun. simplify_eq. rewrite app_assoc. apply exit_cause_app.
       right. left. split; [done|]. by eexists. }
  apply subcommand_elem in Hsub.
  rewrite Forall_forall in IH. specialize (IH _ Hsub). simpl in IH.
  unfold mbind, ST_bind in Hrun.
  destruct (init env child_class tail (name +:+ " " +:+ first) (Some l) h2)
    as [[[child| | |] h3] tr3] eqn:Hchild; simplify_eq/=.
  rewrite app_assoc. apply exit_cause_app. by eapply IH.
Qed.

(** A construction that ends in [sys.exit] does so with 0, 1 or 2, and the
    status tells the cause: 0 right after a help text was printed, 1 right
    after an incorrect subcommand was logged, 2 when a [parse_args] of the
    chain rejected its command line. *)
Theorem exit_status_tells_the_cause env c argv name opts (h h' : Heap) code tr :
  init env c argv name opts h = (Raise (SystemExit code), h', tr) →
  (code = 0 ∧ ∃ p, last tr = Some (EvPrintHelp p))
  ∨ (code = 1
     ∧ ∃ first, last tr = Some (EvLog CRITICAL ("incorrect subcommand: " +:+ first)))
  ∨ (code = 2 ∧ ∃ p a l, last tr = Some (EvParse p a l)).
Proof. apply init_exit. Qed.

Lemma exit_status_tells_the_cause_witness :
  let run := init Sample.env Sample.whipper ["encode"; "--bitrate"] "whipper" None ∅ in
  run.1.1 = Raise (SystemExit 2)
  ∧ ∃ p a l, last run.2 = Some (EvParse p a l).
Proof.
  intros run.
  assert (run = (Raise (SystemExit 2), run.1.2, run.2)) as Hrun
    by (vm_compute; reflexivity).
  split; [by rewrite Hrun|].
  destruct (exit_status_tells_the_cause _ _ _ _ _ _ _ _ _ Hrun)
    as [[? _]|[[? _]|[_ H]]]; [done|done|exact H].
Defined.
